(** * copilot-api-router: account configuration and the master-key gate

    A shallow embedding of [src/lib/account-config.ts] and of the
    [masterKeyAuth] middleware, with the properties of the specification
    stated and proved over it.

    JavaScript strings are modelled as [string]: sequences of 8-bit code
    units (the Latin-1 range).  HTTP header values are byte strings, so the
    gate is modelled exactly; YAML scalars and environment values are
    restricted to that range. *)

From stdpp Require Import gmap strings list fin_maps pretty.
From Stdlib Require Import Ascii String.

Set Warnings "-register-all".

(** ** JavaScript string primitives used by the sources *)

Module JS.

(** [WhiteSpace] and [LineTerminator] code units below U+0100: TAB, LF, VT,
    FF, CR, SP and NBSP.  This is the set [String.prototype.trim] strips. *)
Definition is_ws (c : ascii) : bool :=
  match c with
  | "009" | "010" | "011" | "012" | "013" | " " | "160" => true
  | _ => false
  end%char.

Fixpoint trimStart (s : string) : string :=
  match s with
  | String c s' => if is_ws c then trimStart s' else s
  | EmptyString => EmptyString
  end.

Fixpoint trimEnd (s : string) : string :=
  match s with
  | String c s' =>
      match trimEnd s' with
      | EmptyString => if is_ws c then EmptyString else String c EmptyString
      | t => String c t
      end
  | EmptyString => EmptyString
  end.

(** [s.trim()] *)
Definition trim (s : string) : string := trimEnd (trimStart s).

(** Lower-casing of one code unit: A-Z, and the Latin-1 capitals
    U+00C0-U+00DE except the multiplication sign U+00D7. *)
Definition lower_char (c : ascii) : ascii :=
  let n := nat_of_ascii c in
  if ((65 <=? n) && (n <=? 90)) || ((192 <=? n) && (n <=? 222) && negb (n =? 215))
  then ascii_of_nat (n + 32)
  else c.

(** [s.toLowerCase()] *)
Fixpoint toLowerCase (s : string) : string :=
  match s with
  | String c s' => String (lower_char c) (toLowerCase s')
  | EmptyString => EmptyString
  end.

(** [s.startsWith(p)] *)
Definition startsWith (s p : string) : bool := String.prefix p s.

(** [s.slice(n)] for a non-negative [n] *)
Fixpoint slice (s : string) (n : nat) {struct n} : string :=
  match n with
  | S n' =>
      match s with
      | String _ s' => slice s' n'
      | EmptyString => s
      end
  | O => s
  end.

(** Truthiness of a string: only the empty string is falsy. *)
Definition truthy (s : string) : bool :=
  match s with EmptyString => false | _ => true end.

End JS.

(** ** The master-key gate ([masterKeyAuth]) *)

(** The object literals handed to [c.json]; fields keep their source order. *)
Inductive json :=
  | JsonString (s : string)
  | JsonObject (fields : list (string * json)).

(** What the gate reads of Hono's context: [c.req.header(name)] and
    [c.req.path]. *)
Record Context := {
  req_header : string → option string;
  req_path : string;
}.

(** What a middleware run does: hand over to [next()], or answer with
    [c.json(body, status)]. *)
Inductive Outcome :=
  | Next
  | Json (body : json) (status : nat).

(** [process.env] *)
Abbreviation Env := (gmap string string).

Definition AUTH_HEADER : string := "authorization".
Definition BEARER_PREFIX : string := "bearer ".

(** [(process.env.MASTER_KEY ?? "").trim()] *)
Definition configuredKey (env : Env) : string :=
  JS.trim (default "" (env !! "MASTER_KEY")).

(** The [candidate] of the handler: a string, or [undefined] as [None]. *)
Definition candidate (c : Context) : option string :=
  let headerValue := default "" (req_header c AUTH_HEADER) in
  if JS.startsWith (JS.toLowerCase headerValue) BEARER_PREFIX
  then Some (JS.trim (JS.slice headerValue (String.length BEARER_PREFIX)))
  else None.

Definition masterKeyAuth (env : Env) : Context → Outcome :=
  let configuredKey := configuredKey env in
  if negb (JS.truthy configuredKey) then
    λ _c, Next
  else
    λ c,
      if negb (bool_decide (candidate c = Some configuredKey)) then
        let path := req_path c in
        if JS.startsWith path "/v1/messages" then
          Json
            (JsonObject
               [("type", JsonString "error");
                ("error",
                  JsonObject
                    [("type", JsonString "authentication_error");
                     ("message", JsonString "Invalid or missing Authorization header")])])
            401
        else
          Json
            (JsonObject
               [("error",
                  JsonObject
                    [("message", JsonString "Invalid or missing Authorization header");
                     ("type", JsonString "invalid_api_key")])])
            401
      else Next.

(** ** Exceptions and results *)

(** The double quote, for the messages that quote an id or a name. *)
Definition dq : string := String "034"%char EmptyString.

(** What the code can throw: [new Error(message)], or the system error of
    [fs.readFileSync] on a path it cannot read. *)
Inductive exn :=
  | Error (message : string)
  | ENOENT (path : string).

Inductive result (A : Type) :=
  | Ok (a : A)
  | Throw (e : exn).
Arguments Ok {A} a.
Arguments Throw {A} e.

#[export] Instance result_ret : MRet result := @Ok.
#[export] Instance result_bind : MBind result := λ A B f r,
  match r with
  | Ok a => f a
  | Throw e => Throw e
  end.

(** ** Regular expressions, as far as [ENV_REF_REGEX] needs them

    A backtracking matcher in continuation-passing style, after the
    ECMAScript semantics: a matcher takes the current state (the input still
    to read and the captures so far) and a continuation for the rest of the
    pattern. *)

Inductive regex :=
  | RChar (c : ascii)                  (* a literal character *)
  | RSeq (r1 r2 : regex)               (* r1 r2 *)
  | RAlt (r1 r2 : regex)               (* r1|r2, left alternative first *)
  | RGroup (i : nat) (r : regex)       (* capturing group number i *)
  | RPlus (cls : ascii → bool).        (* cls+, greedy *)

(** [\w] without the [u] and [i] flags *)
Definition is_word (c : ascii) : bool :=
  let n := nat_of_ascii c in
  ((48 <=? n) && (n <=? 57)) || ((65 <=? n) && (n <=? 90))
  || ((97 <=? n) && (n <=? 122)) || (n =? 95).

Record MatchState := {
  ms_rest : string;
  ms_captures : gmap nat string;
}.

(** The text between two positions of the same input, given as suffixes. *)
Definition consumed (from to : string) : string :=
  String.substring 0 (String.length from - String.length to) from.

(** Zero or more characters of [cls]: as many as possible first, one fewer
    each time the continuation fails. *)
Fixpoint repeat_class (cls : ascii → bool) (s : string)
    (k : string → option MatchState) : option MatchState :=
  match s with
  | String c s' =>
      if cls c then
        match repeat_class cls s' k with
        | Some y => Some y
        | None => k s
        end
      else k s
  | EmptyString => k s
  end.

Fixpoint run_regex (r : regex) (x : MatchState)
    (k : MatchState → option MatchState) : option MatchState :=
  match r with
  | RChar c =>
      match ms_rest x with
      | String c' s' =>
          if bool_decide (c' = c)
          then k {| ms_rest := s'; ms_captures := ms_captures x |}
          else None
      | EmptyString => None
      end
  | RSeq r1 r2 => run_regex r1 x (λ y, run_regex r2 y k)
  | RAlt r1 r2 =>
      match run_regex r1 x k with
      | Some y => Some y
      | None => run_regex r2 x k
      end
  | RGroup i r =>
      run_regex r x (λ y,
        k {| ms_rest := ms_rest y;
             ms_captures := <[i := consumed (ms_rest x) (ms_rest y)]> (ms_captures y) |})
  | RPlus cls =>
      match ms_rest x with
      | String c s' =>
          if cls c
          then repeat_class cls s'
                 (λ s'', k {| ms_rest := s''; ms_captures := ms_captures x |})
          else None
      | EmptyString => None
      end
  end.

(** A match attempt at the start of [s]: the matched text and the captures. *)
Definition match_at (re : regex) (s : string) : option (string * gmap nat string) :=
  match run_regex re {| ms_rest := s; ms_captures := ∅ |} Some with
  | Some y => Some (consumed s (ms_rest y), ms_captures y)
  | None => None
  end.

(** The input cut at the matches of a global regex, left to right, as
    [RegExp.prototype[Symbol.replace]] collects them: after a match the search
    resumes at its end ([skip] counts the characters of the match still to
    pass), after an empty match one character further. *)
Inductive segment :=
  | Unmatched (c : ascii)
  | Matched (text : string) (captures : gmap nat string).

Fixpoint segments (re : regex) (skip : nat) (s : string) : list segment :=
  match s with
  | String c s' =>
      match skip with
      | S n => segments re n s'
      | O =>
          match match_at re s with
          | Some (text, captures) =>
              Matched text captures ::
                match String.length text with
                | S n => segments re n s'
                | O => Unmatched c :: segments re 0 s'
                end
          | None => Unmatched c :: segments re 0 s'
          end
      end
  | EmptyString =>
      match skip, match_at re EmptyString with
      | O, Some (text, captures) => [Matched text captures]
      | _, _ => []
      end
  end.

(** The replacer callbacks of this code take the match and two captures. *)
Definition Replacer : Type := string → option string → option string → result string.

(** The replacer runs on the matches in order; what it returns is inserted
    as it is, and what it throws ends the call. *)
Fixpoint substitute (replacer : Replacer) (segs : list segment) : result string :=
  match segs with
  | [] => Ok EmptyString
  | Unmatched c :: segs' =>
      tail ← substitute replacer segs';
      Ok (String c tail)
  | Matched text captures :: segs' =>
      replacement ← replacer text (captures !! 1) (captures !! 2);
      tail ← substitute replacer segs';
      Ok (replacement +:+ tail)
  end.

(** [value.replaceAll(re, replacer)] for a global [re] *)
Definition replaceAll (value : string) (re : regex) (replacer : Replacer) : result string :=
  substitute replacer (segments re 0 value).

(** ** [src/lib/account-config.ts] *)

Record AccountDefinition := {
  id : string;
  githubToken : string;
}.

Record AccountsConfig := {
  accounts : list AccountDefinition;
  defaultAccountId : string;
}.

(** [/\$(?:\{(\w+)\}|(\w+))/g] *)
Definition ENV_REF_REGEX : regex :=
  RSeq (RChar "$")
    (RAlt
       (RSeq (RChar "{") (RSeq (RGroup 1 (RPlus is_word)) (RChar "}")))
       (RGroup 2 (RPlus is_word))).

Definition env_var_missing (accountId variableName : string) : exn :=
  Error ("Account " +:+ dq +:+ accountId +:+ dq
         +:+ " requires environment variable " +:+ dq +:+ variableName +:+ dq
         +:+ " to be set").

(** The callback [resolveEnvReferences] hands to [replaceAll]. *)
Definition env_ref_replacer (env : Env) (accountId : string) : Replacer :=
  λ _match bracketedVar bareVar,
    let variableName := JS.trim (default (default "" bareVar) bracketedVar) in
    if negb (JS.truthy variableName) then Ok ""
    else
      match env !! variableName with
      | Some envValue =>
          if bool_decide (envValue = "")
          then Throw (env_var_missing accountId variableName)
          else Ok envValue
      | None => Throw (env_var_missing accountId variableName)
      end.

Definition resolveEnvReferences (env : Env) (value accountId : string) : result string :=
  replaceAll value ENV_REF_REGEX (env_ref_replacer env accountId).

(** A value of the parsed YAML document, as JavaScript sees it. *)
Inductive JSValue :=
  | JUndefined
  | JNull
  | JBool (b : bool)
  | JNumber (n : Z)
  | JString (s : string)
  | JArray (items : list JSValue)
  | JObject (props : gmap string JSValue).

(** [(v as { key?: unknown }).key]: a plain object gives its property, every
    other non-nullish value has no property of these names. *)
Definition get_property (v : JSValue) (key : string) : JSValue :=
  match v with
  | JObject props => default JUndefined (props !! key)
  | _ => JUndefined
  end.

(** [array.map((item, index) => f(item, index))] with a callback that can
    throw: items are visited in order and the first exception ends the call. *)
Fixpoint array_map {A B : Type} (f : A → nat → result B) (items : list A)
    (index : nat) : result (list B) :=
  match items with
  | [] => Ok []
  | item :: items' =>
      b ← f item index;
      bs ← array_map f items' (S index);
      Ok (b :: bs)
  end.

(** The process around the module: its environment and the files it can
    read, by path. *)
Record World := {
  env : Env;
  files : gmap string string;
}.

(** What the module imports: [parse] of the yaml package (its exception
    carried as the message), [path.resolve], and the value of
    [path.join(process.cwd(), "config.yaml")]. *)
Class Imports := {
  parse : string → string + JSValue;
  path_resolve : string → string;
  DEFAULT_CONFIG_PATH : string;
}.

Section AccountConfig.

Context `{Imports}.

(** [typeof account] is ["object"] for arrays, plain objects and [null]. *)
Definition normalizeAccount (env : Env) (account : JSValue) (index : nat)
    (sourcePath : string) : result AccountDefinition :=
  match account with
  | JArray _ | JObject _ =>
      let id := get_property account "id" in
      let githubToken := get_property account "github_token" in
      match id with
      | JString id =>
          if bool_decide (JS.trim id = "") then
            Throw (Error ("Account entry at index " +:+ pretty index +:+ " in "
                          +:+ sourcePath +:+ " must include a non-empty "
                          +:+ dq +:+ "id" +:+ dq))
          else
            match githubToken with
            | JString githubToken =>
                if bool_decide (JS.trim githubToken = "") then
                  Throw (Error ("Account " +:+ dq +:+ id +:+ dq +:+ " in "
                                +:+ sourcePath +:+ " must include a non-empty "
                                +:+ dq +:+ "github_token" +:+ dq))
                else
                  githubToken ← resolveEnvReferences env githubToken id;
                  Ok {| id := id; githubToken := githubToken |}
            | _ =>
                Throw (Error ("Account " +:+ dq +:+ id +:+ dq +:+ " in "
                              +:+ sourcePath +:+ " must include a non-empty "
                              +:+ dq +:+ "github_token" +:+ dq))
            end
      | _ =>
          Throw (Error ("Account entry at index " +:+ pretty index +:+ " in "
                        +:+ sourcePath +:+ " must include a non-empty "
                        +:+ dq +:+ "id" +:+ dq))
      end
  | _ =>
      Throw (Error ("Account entry at index " +:+ pretty index +:+ " in "
                    +:+ sourcePath +:+ " must be an object"))
  end.

(** [accounts[0].id] on an empty array would be a TypeError; [array_map]
    keeps the length, so that branch is never taken. *)
Definition parseConfig (env : Env) (raw sourcePath : string) : result AccountsConfig :=
  document ←
    match parse raw with
    | inr (JUndefined | JNull) => Ok (JObject ∅)
    | inr document => Ok document
    | inl message =>
        Throw (Error ("Failed to parse accounts config (" +:+ sourcePath +:+ "): "
                      +:+ message))
    end;
  let accountsValue := get_property document "accounts" in
  match accountsValue with
  | JArray ((_ :: _) as accountsValue) =>
      accounts ←
        array_map (λ account index, normalizeAccount env account index sourcePath)
          accountsValue 0;
      match accounts with
      | first :: _ => Ok {| accounts := accounts; defaultAccountId := id first |}
      | [] => Throw (Error "Cannot read properties of undefined (reading 'id')")
      end
  | _ =>
      Throw (Error ("Accounts config must define at least one account in "
                    +:+ sourcePath))
  end.

(** The error is logged through consola and thrown again; the log is not
    part of the model. *)
Definition readConfigFile (w : World) (configPath : string) : result string :=
  match files w !! configPath with
  | Some contents => Ok contents
  | None => Throw (ENOENT configPath)
  end.

(** The module's state is [cachedConfig]; the two exported functions take
    it and give it back. *)
Definition resetAccountsConfigCache (cachedConfig : option AccountsConfig)
    : option AccountsConfig :=
  None.

Definition configPath (w : World) : string :=
  match env w !! "ACCOUNTS_CONFIG" with
  | Some value =>
      if JS.truthy value && (0 <? String.length (JS.trim value))
      then path_resolve value
      else DEFAULT_CONFIG_PATH
  | None => DEFAULT_CONFIG_PATH
  end.

Definition getAccountsConfig (w : World) (cachedConfig : option AccountsConfig)
    : result AccountsConfig * option AccountsConfig :=
  match cachedConfig with
  | Some config => (Ok config, cachedConfig)
  | None =>
      let configPath := configPath w in
      match
        contents ← readConfigFile w configPath;
        parseConfig (env w) contents configPath
      with
      | Ok parsed => (Ok parsed, Some parsed)
      | Throw e => (Throw e, None)
      end
  end.

(** Reading the source afresh: the file at the configured path, parsed
    against the environment of the moment. *)
Definition read_source (w : World) : result AccountsConfig :=
  contents ← readConfigFile w (configPath w);
  parseConfig (env w) contents (configPath w).

End AccountConfig.

(** A client of the module calls its two exported functions in some order,
    while the files and the environment change in between. *)
Inductive call :=
  | Resolve (w : World)
  | Reset.

Section Calls.

Context `{Imports}.

(** The results of the [Resolve] calls, in order, and the final cache. *)
Fixpoint run (calls : list call) (cachedConfig : option AccountsConfig)
    : list (result AccountsConfig) * option AccountsConfig :=
  match calls with
  | [] => ([], cachedConfig)
  | Resolve w :: calls' =>
      let '(r, cachedConfig') :=
        getAccountsConfig w cachedConfig in
      let '(rs, final) := run calls' cachedConfig' in
      (r :: rs, final)
  | Reset :: calls' => run calls' (resetAccountsConfigCache cachedConfig)
  end.

End Calls.

(** ** The scanner of the specification

    The specification describes the substitution as a scanner with two
    tokens, [${NAME}] and [$NAME], where [NAME] is one or more letters, digits
    or underscores, applied left to right; a [$] that starts neither token is
    a literal character.  These definitions follow that description and do
    not use the regular expression. *)

Module Scanner.

Definition name_char (c : ascii) : bool :=
  (("A" <=? c) && (c <=? "Z") || ("a" <=? c) && (c <=? "z")
   || ("0" <=? c) && (c <=? "9") || bool_decide (c = "_"))%char.

(** The longest run of name characters at the start of [s], and what
    follows it. *)
Fixpoint take_name (s : string) : string * string :=
  match s with
  | String c s' =>
      if name_char c
      then let '(name, rest) := take_name s' in (String c name, rest)
      else (EmptyString, s)
  | EmptyString => (EmptyString, EmptyString)
  end.

Inductive ref_form := Braced | Bare.

Inductive token :=
  | Literal (c : ascii)
  | Reference (form : ref_form) (name : string).

Definition token_text (form : ref_form) (name : string) : string :=
  match form with
  | Braced => "${" +:+ name +:+ "}"
  | Bare => "$" +:+ name
  end.

(** [${NAME}] at the start of [s] *)
Definition braced_reference (s : string) : option string :=
  match s with
  | String c (String d s') =>
      if bool_decide (c = "$"%char) && bool_decide (d = "{"%char) then
        match take_name s' with
        | (String _ _ as name, String e _) =>
            if bool_decide (e = "}"%char) then Some name else None
        | _ => None
        end
      else None
  | _ => None
  end.

(** [$NAME] at the start of [s] *)
Definition bare_reference (s : string) : option string :=
  match s with
  | String c s' =>
      if bool_decide (c = "$"%char) then
        match take_name s' with
        | (String _ _ as name, _) => Some name
        | _ => None
        end
      else None
  | EmptyString => None
  end.

Definition next_reference (s : string) : option (ref_form * string) :=
  match braced_reference s with
  | Some name => Some (Braced, name)
  | None =>
      match bare_reference s with
      | Some name => Some (Bare, name)
      | None => None
      end
  end.

(** Left to right: a token where one starts ([skip] counts its characters
    still to pass), a literal character elsewhere. *)
Fixpoint scan (skip : nat) (s : string) : list token :=
  match s with
  | String c s' =>
      match skip with
      | S n => scan n s'
      | O =>
          match next_reference s with
          | Some (form, name) =>
              Reference form name
                :: scan (String.length (token_text form name) - 1) s'
          | None => Literal c :: scan 0 s'
          end
      end
  | EmptyString => []
  end.

(** The value of a referenced variable; unset or empty fails. *)
Definition lookup (env : Env) (accountId name : string) : result string :=
  match env !! name with
  | Some value =>
      if bool_decide (value = "")
      then Throw (env_var_missing accountId name)
      else Ok value
  | None => Throw (env_var_missing accountId name)
  end.

Fixpoint emit (env : Env) (accountId : string) (tokens : list token)
    : result string :=
  match tokens with
  | [] => Ok EmptyString
  | Literal c :: tokens' =>
      tail ← emit env accountId tokens';
      Ok (String c tail)
  | Reference _ name :: tokens' =>
      value ← lookup env accountId name;
      tail ← emit env accountId tokens';
      Ok (value +:+ tail)
  end.

Definition resolve (env : Env) (value accountId : string) : result string :=
  emit env accountId (scan 0 value).

(** [name] is a [NAME]: not empty, name characters only. *)
Fixpoint name_chars (name : string) : bool :=
  match name with
  | String c name' => name_char c && name_chars name'
  | EmptyString => true
  end.

Definition is_name (name : string) : bool :=
  JS.truthy name && name_chars name.

(** A reference in a text ends where the text after it, [post], begins:
    anywhere for the braced form, before a character that cannot continue
    the name for the bare form. *)
Definition ends_before (form : ref_form) (post : string) : bool :=
  match form, post with
  | Bare, String c _ => negb (name_char c)
  | _, _ => true
  end.

(** A [$] starts a reference somewhere in [s]. *)
Fixpoint has_reference (s : string) : bool :=
  match s with
  | String _ s' => bool_decide (is_Some (next_reference s)) || has_reference s'
  | EmptyString => false
  end.

(** The names a text refers to, left to right. *)
Definition references (s : string) : list string :=
  omap (λ t, match t with Reference _ name => Some name | Literal _ => None end)
    (scan 0 s).

End Scanner.

(** ** Valid entries, in the words of the specification

    An entry is a mapping with a non-blank string [id] and a non-blank string
    credential, and every variable the credential refers to is set and not
    empty. *)

Definition variable_set (env : Env) (name : string) : bool :=
  match env !! name with
  | Some value => JS.truthy value
  | None => false
  end.

Definition valid_entry (env : Env) (entry : JSValue) : bool :=
  match entry with
  | JObject props =>
      match props !! "id", props !! "github_token" with
      | Some (JString id), Some (JString credential) =>
          JS.truthy (JS.trim id) && JS.truthy (JS.trim credential)
          && forallb (variable_set env) (Scanner.references credential)
      | _, _ => false
      end
  | _ => false
  end.

(** ** The scanner's tokens as matches of [ENV_REF_REGEX] *)

(** The capture group a form fills. *)
Definition group_of (form : Scanner.ref_form) : nat :=
  match form with
  | Scanner.Braced => 1
  | Scanner.Bare => 2
  end.

Definition segment_of (t : Scanner.token) : segment :=
  match t with
  | Scanner.Literal c => Unmatched c
  | Scanner.Reference form name =>
      Matched (Scanner.token_text form name) {[ group_of form := name ]}
  end.

Definition token_ok (t : Scanner.token) : Prop :=
  match t with
  | Scanner.Literal _ => True
  | Scanner.Reference _ name => Scanner.is_name name = true
  end.

(** ** The invariant of the cache

    The default account is the first account: what every configuration in
    the cache and every configuration returned satisfies. *)
Definition default_is_first (config : AccountsConfig) : Prop :=
  ∃ first, head (accounts config) = Some first
           ∧ defaultAccountId config = id first.

(** ** Example documents and processes *)

Module Examples.

Definition account_entry (id github_token : string) : JSValue :=
  JObject (<["id" := JString id]> {[ "github_token" := JString github_token ]}).

Definition document_of (entries : list JSValue) : JSValue :=
  JObject {[ "accounts" := JArray entries ]}.

(** The scenario of the specification, in YAML's flow style. *)
Definition two_accounts_yaml : string :=
  "accounts: [{id: primary, github_token: token-one}, {id: backup, github_token: token-two}]".
Definition two_accounts : list JSValue :=
  [account_entry "primary" "token-one"; account_entry "backup" "token-two"].

(** Two entries under one id. *)
Definition duplicate_yaml : string :=
  "accounts: [{id: dup, github_token: token-one}, {id: dup, github_token: token-two}]".
Definition duplicate : list JSValue :=
  [account_entry "dup" "token-one"; account_entry "dup" "token-two"].

(** A credential with two references. *)
Definition references_yaml : string :=
  "accounts: [{id: acc, github_token: '${A}${B}'}]".
Definition references : list JSValue := [account_entry "acc" "${A}${B}"].

(** The yaml package on the three texts above; [path.resolve] on absolute
    paths. *)
Definition imports : Imports := {|
  parse raw :=
    if bool_decide (raw = two_accounts_yaml) then inr (document_of two_accounts)
    else if bool_decide (raw = duplicate_yaml) then inr (document_of duplicate)
    else if bool_decide (raw = references_yaml) then inr (document_of references)
    else inl "unexpected input";
  path_resolve p := p;
  DEFAULT_CONFIG_PATH := "/srv/config.yaml";
|}.

Definition world_of (yaml : string) (env : Env) : World :=
  {| env := env; files := {[ "/srv/config.yaml" := yaml ]} |}.

Definition two_accounts_config : AccountsConfig :=
  {| accounts :=
       [{| id := "primary"; githubToken := "token-one" |};
        {| id := "backup"; githubToken := "token-two" |}];
     defaultAccountId := "primary" |}.

Definition duplicate_config : AccountsConfig :=
  {| accounts :=
       [{| id := "dup"; githubToken := "token-one" |};
        {| id := "dup"; githubToken := "token-two" |}];
     defaultAccountId := "dup" |}.

Definition two_accounts_world : World := world_of two_accounts_yaml ∅.
Definition duplicate_world : World := world_of duplicate_yaml ∅.
Definition references_world : World := world_of references_yaml {[ "A" := "alpha" ]}.

(** A process with no configuration file. *)
Definition no_file : World := {| env := ∅; files := ∅ |}.

Definition request (authorization : option string) (path : string) : Context :=
  {| req_header name :=
       if bool_decide (name = "authorization") then authorization else None;
     req_path := path |}.

Definition secret_env : Env := {[ "MASTER_KEY" := "secret" ]}.

End Examples.

(** ** [src/start.ts]: the [start] command and the start of the server *)

(** [Number.parseInt(string, 10)]: leading white space is passed, then a
    sign, then the longest run of decimal digits is read; no digit gives NaN
    ([None]).  The model keeps the integer read; JavaScript rounds it to a
    double, which is the same number below 2^53 and the same side of every
    bound compared with below.  Negative zero is zero here. *)
Module Number.

Definition digit (c : ascii) : option Z :=
  let n := nat_of_ascii c in
  if (48 <=? n) && (n <=? 57) then Some (Z.of_nat n - 48)%Z else None.

Fixpoint take_digits (s : string) : string :=
  match s with
  | String c s' =>
      match digit c with
      | Some _ => String c (take_digits s')
      | None => EmptyString
      end
  | EmptyString => EmptyString
  end.

Fixpoint digits_value (acc : Z) (digits : string) : Z :=
  match digits with
  | String c digits' => digits_value (acc * 10 + default 0%Z (digit c))%Z digits'
  | EmptyString => acc
  end.

Definition parseInt (input : string) : option Z :=
  let trimmed := JS.trimStart input in
  let '(sign, unsigned) :=
    match trimmed with
    | String c rest =>
        if bool_decide (c = "-"%char) then ((-1)%Z, rest)
        else if bool_decide (c = "+"%char) then (1%Z, rest)
        else (1%Z, trimmed)
    | EmptyString => (1%Z, trimmed)
    end in
  match take_digits unsigned with
  | EmptyString => None
  | digits => Some (sign * digits_value 0 digits)%Z
  end.

End Number.

(** [process.env.PORT?.trim() ?? "4141"], the default of the [port]
    argument *)
Definition envPort (env : Env) : string :=
  match env !! "PORT" with
  | Some value => JS.trim value
  | None => "4141"
  end.

(** The port of [run]: [Number.parseInt(args.port, 10)], refused when it is
    NaN, not positive, or above 65535; the port is what [runServer] gets. *)
Definition run_port (args_port : string) : result Z :=
  let port := Number.parseInt args_port in
  if match port with
     | None => true
     | Some port => (port <=? 0)%Z || (65535 <? port)%Z
     end
  then Throw (Error ("Invalid port: " +:+ args_port))
  else Ok (default 0%Z port).

(** The two messages [runServer] can log about [MASTER_KEY]. *)
Inductive auth_log :=
  | MasterKeyDetected   (* inbound requests require Bearer auth *)
  | MasterKeyNotSet.    (* inbound authentication disabled *)

Definition runServer_auth_log (env : Env) : auth_log :=
  let masterKey := JS.trim (default "" (env !! "MASTER_KEY")) in
  if JS.truthy masterKey then MasterKeyDetected else MasterKeyNotSet.

(** The account [runServer] puts in [state]: the one found under the default
    id, or else the first. *)
Definition runServer_defaultAccount (accountsConfig : AccountsConfig)
    : result AccountDefinition :=
  if List.length (accounts accountsConfig) =? 0 then
    Throw (Error "No accounts configured")
  else
    match
      List.find
        (λ account, bool_decide (id account = defaultAccountId accountsConfig))
        (accounts accountsConfig)
    with
    | Some defaultAccount => Ok defaultAccount
    | None =>
        match accounts accountsConfig with
        | first :: _ => Ok first
        | [] => Throw (Error "Cannot read properties of undefined (reading 'id')")
        end
    end.

(** ** [src/check-usage.ts] *)

(** The account the [check-usage] command puts in [state]. *)
Definition checkUsage_defaultAccount (accountsConfig : AccountsConfig)
    : result AccountDefinition :=
  if List.length (accounts accountsConfig) =? 0 then
    Throw (Error "No accounts configured")
  else
    match accounts accountsConfig with
    | first :: _ => Ok first
    | [] => Throw (Error "Cannot read properties of undefined (reading 'id')")
    end.

(** ** Notions for the properties below *)

(** White space only: what [trim] empties. *)
Fixpoint is_blank (s : string) : bool :=
  match s with
  | String c s' => JS.is_ws c && is_blank s'
  | EmptyString => true
  end.

(** Not starting with white space. *)
Definition starts_clean (s : string) : bool :=
  match s with
  | String c _ => negb (JS.is_ws c)
  | EmptyString => true
  end.

(** Decimal digits only. *)
Fixpoint all_digits (s : string) : bool :=
  match s with
  | String c s' => bool_decide (is_Some (Number.digit c)) && all_digits s'
  | EmptyString => true
  end.

(** Not starting with a decimal digit. *)
Definition no_digit_ahead (s : string) : bool :=
  match s with
  | String c _ => bool_decide (Number.digit c = None)
  | EmptyString => true
  end.

Definition is_throw {A : Type} (r : result A) : Prop :=
  match r with
  | Throw _ => True
  | Ok _ => False
  end.

(** ** More example documents and processes *)

Module Scenarios.

(** A scalar where the second entry should be. *)
Definition scalar_entry_yaml : string :=
  "accounts: [{id: primary, github_token: token-one}, oops]".
Definition scalar_entry : list JSValue :=
  [Examples.account_entry "primary" "token-one"; JString "oops"].

(** An empty file: the yaml package gives [null]. *)
Definition empty_yaml : string := "".

Definition imports : Imports := {|
  parse raw :=
    if bool_decide (raw = scalar_entry_yaml) then inr (Examples.document_of scalar_entry)
    else if bool_decide (raw = empty_yaml) then inr JNull
    else if bool_decide (raw = Examples.two_accounts_yaml)
    then inr (Examples.document_of Examples.two_accounts)
    else if bool_decide (raw = Examples.references_yaml)
    then inr (Examples.document_of Examples.references)
    else inl "unexpected input";
  path_resolve p := p;
  DEFAULT_CONFIG_PATH := "/srv/config.yaml";
|}.

Definition scalar_entry_world : World := Examples.world_of scalar_entry_yaml ∅.

(** Both variables of the credential set, one of them to a text that looks
    like a reference. *)
Definition both_set_world : World :=
  Examples.world_of Examples.references_yaml
    (<["A" := "alpha"]> {[ "B" := "$A" ]}).

(** The override naming another file. *)
Definition override_world : World :=
  {| env := {[ "ACCOUNTS_CONFIG" := "/etc/accounts.yaml" ]};
     files := {[ "/etc/accounts.yaml" := Examples.two_accounts_yaml ]} |}.

(** The process of [Examples.two_accounts_world] with one more file. *)
Definition extra_file_world : World :=
  {| env := ∅;
     files := <["/srv/other.yaml" := "accounts: []"]>
                {[ "/srv/config.yaml" := Examples.two_accounts_yaml ]} |}.

Definition three_calls : list call :=
  [Resolve Examples.no_file; Resolve Examples.two_accounts_world;
   Resolve Examples.duplicate_world].

End Scenarios.

(** * Properties *)

(** ** Strings *)

Lemma append_nil_l (s : string) : "" +:+ s = s.
Proof. reflexivity. Qed.

Lemma append_cons (c : ascii) (s t : string) : String c s +:+ t = String c (s +:+ t).
Proof. reflexivity. Qed.

Lemma append_nil_r (s : string) : s +:+ "" = s.
Proof. induction s as [|c s IH]; [done|]. by rewrite append_cons, IH. Qed.

Lemma append_assoc (s t u : string) : (s +:+ t) +:+ u = s +:+ t +:+ u.
Proof. induction s as [|c s IH]; [done|]. by rewrite !append_cons, IH. Qed.

Lemma length_append (s t : string) :
  String.length (s +:+ t) = String.length s + String.length t.
Proof. induction s as [|c s IH]; [done|]. rewrite append_cons. simpl. by rewrite IH. Qed.

Lemma substring_append (s t : string) :
  String.substring 0 (String.length s) (s +:+ t) = s.
Proof. induction s as [|c s IH]; [by destruct t|]. rewrite append_cons. simpl. by rewrite IH. Qed.

Lemma consumed_append (s t : string) : consumed (s +:+ t) t = s.
Proof.
  unfold consumed. rewrite length_append.
  replace (String.length s + String.length t - String.length t) with (String.length s) by lia.
  apply substring_append.
Qed.

Lemma name_char_is_word (c : ascii) : Scanner.name_char c = is_word c.
Proof. by destruct c as [[] [] [] [] [] [] [] []]. Qed.

Lemma name_char_not_ws (c : ascii) : Scanner.name_char c = true → JS.is_ws c = false.
Proof. by destruct c as [[] [] [] [] [] [] [] []]. Qed.

Lemma name_char_dollar : Scanner.name_char "$" = false.
Proof. reflexivity. Qed.

Section ScannerFacts.

Import Scanner.

Lemma take_name_eq (s : string) : s = (take_name s).1 +:+ (take_name s).2.
Proof.
induction s as [|c s IH]; [done|]. simpl.
destruct (name_char c); [|done].
destruct (take_name s) as [name rest]. simpl in *. by rewrite append_cons, <- IH.
Qed.

Lemma take_name_chars (s : string) : name_chars (take_name s).1 = true.
Proof.
induction s as [|c s IH]; [done|]. simpl.
destruct (name_char c) eqn:Hc; [|done].
destruct (take_name s) as [name rest]. simpl in *. by rewrite Hc.
Qed.

Lemma take_name_rest (s : string) : ends_before Bare (take_name s).2 = true.
Proof.
induction s as [|c s IH]; [done|]. simpl.
destruct (name_char c) eqn:Hc.
- by destruct (take_name s) as [name rest].
- simpl. by rewrite Hc.
Qed.

(** Reading a name stops at its end when what follows cannot continue it. *)
Lemma take_name_append (name post : string) :
name_chars name = true → ends_before Bare post = true →
take_name (name +:+ post) = (name, post).
Proof.
intros Hname Hpost. induction name as [|c name IH].
- rewrite append_nil_l. destruct post as [|d post]; [done|].
  simpl in *. by destruct (name_char d).
- simpl in Hname. apply andb_prop in Hname as [Hc Hname].
  rewrite append_cons. simpl. by rewrite Hc, IH.
Qed.

(** ** The regular expression against the scanner's tokens *)

Lemma repeat_class_rejecting (s : string) (k : string → option MatchState) :
(∀ c t, is_word c = true → k (String c t) = None) →
repeat_class is_word s k = k (take_name s).2.
Proof.
intros Hk. induction s as [|c s IH]; [done|]. simpl.
rewrite name_char_is_word. destruct (is_word c) eqn:Hc; [|done].
rewrite IH. destruct (take_name s) as [name rest]. simpl.
destruct (k rest) eqn:Hrest; [done|]. by apply Hk.
Qed.

Lemma repeat_class_accepting (s : string) (k : string → option MatchState) :
(∀ t, is_Some (k t)) →
repeat_class is_word s k = k (take_name s).2.
Proof.
intros Hk. induction s as [|c s IH]; [done|]. simpl.
rewrite name_char_is_word. destruct (is_word c) eqn:Hc; [|done].
rewrite IH. destruct (take_name s) as [name rest]. simpl.
by destruct (Hk rest) as [y ->].
Qed.

Lemma match_at_env_ref (s : string) :
match_at ENV_REF_REGEX s =
  (λ '(form, name), (token_text form name, {[ group_of form := name ]}))
    <$> next_reference s.
Proof.
unfold match_at, next_reference, braced_reference, bare_reference, ENV_REF_REGEX.
destruct s as [|c s]; [done|]. simpl.
case_bool_decide as Hc; [subst c|by destruct s]. simpl.
destruct s as [|d s]; [done|]. simpl.
case_bool_decide as Hd; simpl.
- subst d. destruct s as [|e s]; [done|]. simpl.
  rewrite <- name_char_is_word.
  destruct (name_char e) eqn:He; [|done].
  rewrite repeat_class_rejecting.
  2:{ intros c t Hw. simpl. case_bool_decide; [subst c; done|done]. }
  pose proof (take_name_eq s) as Hs.
  destruct (take_name s) as [name rest]. simpl in *.
  destruct rest as [|f rest]; simpl; [done|].
  case_bool_decide as Hf; [subst f|done]. simpl.
  rewrite Hs. unfold token_text.
  change (String e (name +:+ String "}" rest)) with (String e name +:+ String "}" rest).
  rewrite consumed_append.
  change (String "$" (String "{" (String e name +:+ String "}" rest)))
    with ("${" +:+ String e name +:+ "}" +:+ rest).
  by rewrite <- !append_assoc, consumed_append, !append_assoc.
- rewrite <- name_char_is_word.
  destruct (name_char d) eqn:Hd'; [|done].
  rewrite repeat_class_accepting by (intros t; eauto).
  pose proof (take_name_eq s) as Hs.
  destruct (take_name s) as [name rest]. simpl in *.
  rewrite Hs. unfold token_text.
  change (String d (name +:+ rest)) with (String d name +:+ rest).
  rewrite consumed_append.
  change (String "$" (String d name +:+ rest)) with (("$" +:+ String d name) +:+ rest).
  by rewrite consumed_append.
Qed.

Lemma trimStart_name (name : string) : name_chars name = true → JS.trimStart name = name.
Proof.
destruct name as [|c name]; [done|]. simpl.
intros [Hc _]%andb_prop. by rewrite (name_char_not_ws c Hc).
Qed.

Lemma trimEnd_name (name : string) : name_chars name = true → JS.trimEnd name = name.
Proof.
induction name as [|c name IH]; [done|]. simpl.
intros [Hc Hname]%andb_prop. rewrite IH by done.
destruct name; [|done]. by rewrite (name_char_not_ws c Hc).
Qed.

Lemma trim_name (name : string) : name_chars name = true → JS.trim name = name.
Proof. intros H. unfold JS.trim. by rewrite trimStart_name, trimEnd_name. Qed.

(** What the scanner takes for a reference is a reference. *)
Lemma next_reference_sound (s : string) (form : ref_form) (name : string) :
next_reference s = Some (form, name) →
is_name name = true ∧
∃ post, s = token_text form name +:+ post ∧ ends_before form post = true.
Proof.
unfold next_reference, braced_reference, bare_reference.
destruct s as [|c s]; [done|].
case_bool_decide as Hc; simpl; [subst c|by destruct s].
pose proof (take_name_eq s) as Hs.
pose proof (take_name_chars s) as Hn.
pose proof (take_name_rest s) as Hr.
destruct s as [|d s]; [done|].
case_bool_decide as Hd; simpl in *.
- subst d. clear Hs Hn Hr.
  pose proof (take_name_eq s) as Hs.
  pose proof (take_name_chars s) as Hn.
  destruct (take_name s) as [[|e name'] [|f rest]]; simpl in *; try done.
  case_bool_decide as Hf; [subst f|done].
  intros [= <- <-]. split; [done|].
  exists rest. split; [|done]. unfold token_text.
  by rewrite Hs, !append_assoc.
- destruct (name_char d) eqn:Hd'; [|done].
  destruct (take_name s) as [name' rest]. simpl in *.
  intros [= <- <-]. split; [exact Hn|].
  exists rest. injection Hs as ->. split; [done|].
  by destruct rest.
Qed.

(** Every reference is taken by the scanner, with its own name. *)
Lemma next_reference_complete (form : ref_form) (name post : string) :
is_name name = true → ends_before form post = true →
next_reference (token_text form name +:+ post) = Some (form, name).
Proof.
unfold is_name. intros [Hne Hname]%andb_prop Hpost.
unfold next_reference, braced_reference, bare_reference.
destruct form; unfold token_text.
- change ("${" +:+ name +:+ "}") with (String "$" (String "{" (name +:+ "}"))).
  rewrite !append_cons, append_assoc.
  change ("}" +:+ post) with (String "}" post). simpl.
  rewrite (take_name_append name (String "}" post)) by done.
  by destruct name.
- change ("$" +:+ name) with (String "$" name). rewrite append_cons.
  pose proof (take_name_append name post Hname Hpost) as Htake.
  destruct name as [|c name]; [done|]. rewrite append_cons in *.
  assert (c ≠ "{"%char) as Hbrace.
  { intros ->. simpl in Hname. done. }
  cbn [andb bool_decide]. rewrite (bool_decide_eq_false_2 _ Hbrace).
  rewrite bool_decide_eq_true_2 by done. cbn [andb]. by rewrite Htake.
Qed.

Lemma length_token_text (form : ref_form) (name : string) :
String.length (token_text form name) = S (String.length (token_text form name) - 1).
Proof.
assert (∃ c t, token_text form name = String c t) as (c & t & ->).
{ destruct form; eexists _, _; unfold token_text; by rewrite append_cons. }
simpl. lia.
Qed.

(** ** [replaceAll] with [ENV_REF_REGEX] against the scanner *)

Lemma segments_scan (s : string) (skip : nat) :
segments ENV_REF_REGEX skip s = segment_of <$> scan skip s.
Proof.
revert skip. induction s as [|c s IH]; intros skip.
- by destruct skip.
- destruct skip as [|n]; simpl; [|by apply IH].
  rewrite match_at_env_ref.
  destruct (next_reference (String c s)) as [[form name]|]; simpl.
  + rewrite length_token_text, IH. by rewrite <- length_token_text.
  + by rewrite IH.
Qed.

Lemma scan_names (s : string) (skip : nat) : Forall token_ok (scan skip s).
Proof.
revert skip. induction s as [|c s IH]; intros skip; [by constructor|].
destruct skip as [|n]; simpl; [|by apply IH].
destruct (next_reference (String c s)) as [[form name]|] eqn:Href.
- constructor; [|by apply IH].
  by apply next_reference_sound in Href as [? _].
- constructor; [done|by apply IH].
Qed.

Lemma env_ref_replacer_reference (env : Env) (accountId text : string)
  (form : ref_form) (name : string) :
is_name name = true →
env_ref_replacer env accountId text
  (({[ group_of form := name ]} : gmap nat string) !! 1)
  (({[ group_of form := name ]} : gmap nat string) !! 2)
= lookup env accountId name.
Proof.
unfold is_name. intros [Hne Hname]%andb_prop. unfold env_ref_replacer.
assert (default (default "" (({[group_of form := name]} : gmap nat string) !! 2))
          (({[group_of form := name]} : gmap nat string) !! 1) = name) as ->.
{ by destruct form. }
cbv zeta. rewrite trim_name by done. by rewrite Hne.
Qed.

Lemma substitute_emit (env : Env) (accountId : string) (tokens : list token) :
Forall token_ok tokens →
substitute (env_ref_replacer env accountId) (segment_of <$> tokens)
= emit env accountId tokens.
Proof.
induction 1 as [|t tokens Ht _ IH]; [done|].
destruct t as [c|form name]; cbn [fmap list_fmap segment_of substitute emit].
- by rewrite IH.
- by rewrite IH, env_ref_replacer_reference.
Qed.

(** The substitution of the source is the scanner of the specification. *)
Lemma resolveEnvReferences_scanner (env : Env) (value accountId : string) :
resolveEnvReferences env value accountId = resolve env value accountId.
Proof.
unfold resolveEnvReferences, replaceAll, resolve.
rewrite segments_scan. apply substitute_emit, scan_names.
Qed.

(** ** The scanner on a text cut before a [$] *)

Lemma take_name_before_dollar (s post : string) :
take_name (s +:+ String "$" post)
= ((take_name s).1, (take_name s).2 +:+ String "$" post).
Proof.
induction s as [|c s IH]; [done|]. rewrite append_cons. simpl.
destruct (name_char c); [|done].
rewrite IH. by destruct (take_name s).
Qed.

(** A [$] ends whatever token is being read: no token reaches over it. *)
Lemma next_reference_before_dollar (c : ascii) (s post : string) :
next_reference (String c s +:+ String "$" post) = next_reference (String c s).
Proof.
unfold next_reference, braced_reference, bare_reference.
rewrite append_cons. rewrite take_name_before_dollar.
destruct s as [|d s].
- rewrite append_nil_l. destruct (bool_decide (c = "$"%char)); done.
- rewrite append_cons, take_name_before_dollar.
  destruct (take_name (String d s)) as [name rest].
  destruct (take_name s) as [name' rest']. simpl.
  destruct (bool_decide (c = "$"%char)), (bool_decide (d = "{"%char)); simpl; try done.
  destruct name' as [|e name']; [done|].
  destruct rest' as [|f rest']; [done|]. by rewrite append_cons.
Qed.

Lemma next_reference_length (s : string) (form : ref_form) (name : string) :
next_reference s = Some (form, name) →
String.length (token_text form name) ≤ String.length s.
Proof.
intros (_ & post & -> & _)%next_reference_sound. rewrite length_append. lia.
Qed.

Lemma scan_before_dollar (pre post : string) (skip : nat) :
skip ≤ String.length pre →
scan skip (pre +:+ String "$" post) = scan skip pre ++ scan 0 (String "$" post).
Proof.
revert skip. induction pre as [|c pre IH]; intros skip Hskip.
- simpl in Hskip. by replace skip with 0 by lia.
- destruct skip as [|n].
  + change (scan 0 (String c pre +:+ String "$" post))
      with (match next_reference (String c pre +:+ String "$" post) with
            | Some (form, name) =>
                Reference form name
                  :: scan (String.length (token_text form name) - 1)
                       (pre +:+ String "$" post)
            | None => Literal c :: scan 0 (pre +:+ String "$" post)
            end).
    rewrite next_reference_before_dollar. simpl.
    destruct (next_reference (String c pre)) as [[form name]|] eqn:Href.
    * apply next_reference_length in Href. simpl in Href.
      rewrite IH by lia. done.
    * rewrite IH by lia. done.
  + rewrite append_cons. simpl in *. apply IH. lia.
Qed.

Lemma scan_skip (text post : string) :
scan (String.length text) (text +:+ post) = scan 0 post.
Proof. induction text as [|c text IH]; [done|]. rewrite append_cons. apply IH. Qed.

Lemma token_text_dollar (form : ref_form) (name : string) :
∃ t, token_text form name = String "$" t.
Proof. destruct form; eexists; unfold token_text; by rewrite append_cons. Qed.

Lemma scan_reference (form : ref_form) (name post : string) :
is_name name = true → ends_before form post = true →
scan 0 (token_text form name +:+ post) = [Reference form name] ++ scan 0 post.
Proof.
intros Hname Hpost.
pose proof (next_reference_complete form name post Hname Hpost) as Href.
destruct (token_text_dollar form name) as [t Ht]. rewrite Ht in *.
rewrite append_cons in *. simpl scan. rewrite Href. simpl.
f_equal. rewrite Ht. simpl. rewrite Nat.sub_0_r. apply scan_skip.
Qed.

(** ** What the scanner emits *)

Lemma emit_app (env : Env) (accountId : string) (tokens tokens' : list token) :
emit env accountId (tokens ++ tokens')
= head ← emit env accountId tokens;
  tail ← emit env accountId tokens';
  Ok (head +:+ tail).
Proof.
induction tokens as [|t tokens IH]; simpl.
- by destruct (emit env accountId tokens').
- destruct t as [c|form name]; simpl.
  + rewrite IH. destruct (emit env accountId tokens); [|done]. simpl.
    by destruct (emit env accountId tokens').
  + destruct (lookup env accountId name); [|done]. simpl.
    rewrite IH. destruct (emit env accountId tokens); [|done]. simpl.
    destruct (emit env accountId tokens'); [|done]. simpl.
    by rewrite append_assoc.
Qed.

Lemma resolve_before_dollar (env : Env) (accountId pre post : string) :
resolve env (pre +:+ String "$" post) accountId
= head ← resolve env pre accountId;
  tail ← resolve env (String "$" post) accountId;
  Ok (head +:+ tail).
Proof. unfold resolve. rewrite scan_before_dollar by lia. apply emit_app. Qed.

Lemma resolve_reference (env : Env) (accountId : string) (form : ref_form)
  (name post : string) :
is_name name = true → ends_before form post = true →
resolve env (token_text form name +:+ post) accountId
= value ← lookup env accountId name;
  tail ← resolve env post accountId;
  Ok (value +:+ tail).
Proof. intros Hname Hpost. unfold resolve. by rewrite scan_reference. Qed.

Lemma resolve_literal_dollar (env : Env) (accountId post : string) :
next_reference (String "$" post) = None →
resolve env (String "$" post) accountId
= tail ← resolve env post accountId; Ok (String "$" tail).
Proof. intros Href. unfold resolve. simpl scan. by rewrite Href. Qed.

(** A text in which no reference starts is what the scanner gives back. *)
Lemma resolve_no_reference (env : Env) (accountId s : string) :
has_reference s = false → resolve env s accountId = Ok s.
Proof.
unfold resolve. induction s as [|c s IH]; [done|].
simpl has_reference. intros [Href Hs]%orb_false_elim.
apply bool_decide_eq_false in Href.
simpl scan. destruct (next_reference (String c s)) as [[form name]|].
- destruct Href. eauto.
- simpl. by rewrite IH.
Qed.

(** The only exception of the scanner: a referenced variable that is unset
  or empty, named with the account. *)
Lemma emit_throw (env : Env) (accountId : string) (tokens : list token) (e : exn) :
emit env accountId tokens = Throw e →
∃ name, e = env_var_missing accountId name
        ∧ (env !! name = None ∨ env !! name = Some "").
Proof.
induction tokens as [|t tokens IH]; [done|]. destruct t as [c|form name]; simpl.
- destruct (emit env accountId tokens); [done|]. intros [= <-]. by apply IH.
- unfold lookup. destruct (env !! name) as [value|] eqn:Hname.
  + case_bool_decide as Hvalue; simpl.
    * intros [= <-]. subst value. eauto.
    * destruct (emit env accountId tokens); [done|]. intros [= <-]. by apply IH.
  + intros [= <-]. eauto.
Qed.

End ScannerFacts.

(** ** The gate *)

Lemma lower_char_inv (c : ascii) :
  (JS.lower_char c = "b"%char → c = "b"%char ∨ c = "B"%char)
  ∧ (JS.lower_char c = "e"%char → c = "e"%char ∨ c = "E"%char)
  ∧ (JS.lower_char c = "a"%char → c = "a"%char ∨ c = "A"%char)
  ∧ (JS.lower_char c = "r"%char → c = "r"%char ∨ c = "R"%char)
  ∧ (JS.lower_char c = " "%char → c = " "%char).
Proof. destruct c as [[] [] [] [] [] [] [] []]; vm_compute; intuition congruence. Qed.

Lemma toLowerCase_append (s t : string) :
  JS.toLowerCase (s +:+ t) = JS.toLowerCase s +:+ JS.toLowerCase t.
Proof. induction s as [|c s IH]; [done|]. rewrite append_cons. simpl. by rewrite IH. Qed.

Lemma prefix_spec (p s : string) :
  String.prefix p s = true ↔ ∃ t, s = p +:+ t.
Proof.
  revert s. induction p as [|c p IH]; intros s.
  - split; [by exists s|by destruct s].
  - destruct s as [|d s]; simpl.
    + split; [done|]. by intros [t Ht].
    + destruct (ascii_dec c d) as [->|Hne].
      * rewrite IH. split; intros [t Ht]; exists t.
        -- by rewrite append_cons, Ht.
        -- rewrite append_cons in Ht. by injection Ht.
      * split; [done|]. intros [t Ht]. rewrite append_cons in Ht. congruence.
Qed.

Lemma toLowerCase_append_inv (s a b : string) :
  JS.toLowerCase s = a +:+ b →
  ∃ s1 s2, s = s1 +:+ s2 ∧ JS.toLowerCase s1 = a ∧ JS.toLowerCase s2 = b.
Proof.
  revert s. induction a as [|c a IH]; intros s Hs.
  - by exists "", s.
  - destruct s as [|d s]; [done|]. rewrite append_cons in Hs. simpl in Hs.
    injection Hs as Hd Hs. apply IH in Hs as (s1 & s2 & -> & <- & <-).
    exists (String d s1), s2. simpl. by rewrite Hd.
Qed.

(** The header shapes that give a candidate: the six letters of the scheme
    in either case, one space, and the rest. *)
Lemma bearer_prefix (headerValue : string) :
  JS.startsWith (JS.toLowerCase headerValue) BEARER_PREFIX = true ↔
  ∃ scheme rest,
    headerValue = scheme +:+ " " +:+ rest ∧ JS.toLowerCase scheme = "bearer".
Proof.
  unfold JS.startsWith, BEARER_PREFIX. rewrite prefix_spec. split.
  - intros [t Ht].
    change ("bearer " +:+ t) with ("bearer" +:+ String " " t) in Ht.
    apply toLowerCase_append_inv in Ht as (scheme & rest & -> & Hscheme & Hrest).
    destruct rest as [|c rest]; [done|]. simpl in Hrest. injection Hrest as Hc _.
    apply lower_char_inv in Hc as ->. by exists scheme, rest.
  - intros (scheme & rest & -> & Hscheme).
    exists (JS.toLowerCase rest). by rewrite toLowerCase_append, Hscheme.
Qed.

Lemma slice_bearer (scheme rest : string) :
  JS.toLowerCase scheme = "bearer" →
  JS.slice (scheme +:+ " " +:+ rest) (String.length BEARER_PREFIX) = rest.
Proof.
  destruct scheme as [|c1 [|c2 [|c3 [|c4 [|c5 [|c6 [|c7 scheme]]]]]]];
    intros H; simpl in H; try congruence. reflexivity.
Qed.

Lemma candidate_spec (c : Context) (token : string) :
  candidate c = Some token ↔
  ∃ scheme rest,
    req_header c AUTH_HEADER = Some (scheme +:+ " " +:+ rest)
    ∧ JS.toLowerCase scheme = "bearer" ∧ token = JS.trim rest.
Proof.
  unfold candidate. cbv zeta. split.
  - destruct (JS.startsWith _ _) eqn:Hprefix; [|done].
    apply bearer_prefix in Hprefix as (scheme & rest & Hheader & Hscheme).
    rewrite Hheader, slice_bearer by done. intros [= <-].
    exists scheme, rest. repeat split; [|done].
    destruct (req_header c AUTH_HEADER) as [headerValue|]; simpl in *;
      [by subst|by destruct scheme].
  - intros (scheme & rest & -> & Hscheme & ->). cbn [default from_option]. unfold Datatypes.id.
    rewrite (proj2 (bearer_prefix _)) by eauto.
    by rewrite slice_bearer.
Qed.

Lemma truthy_nonempty (s : string) : s ≠ "" → JS.truthy s = true.
Proof. by destruct s. Qed.

(** ** [array_map] *)

Lemma array_map_ok {A B : Type} (f : A → nat → result B) (items : list A)
    (index : nat) (bs : list B) :
  array_map f items index = Ok bs →
  Forall2 (λ item b, ∃ i, f item i = Ok b) items bs.
Proof.
  revert index bs. induction items as [|item items IH]; intros index bs; simpl.
  - intros [= <-]. constructor.
  - destruct (f item index) as [b|] eqn:Hb; [|done]. simpl.
    destruct (array_map f items (S index)) as [bs'|] eqn:Hbs; [|done]. simpl.
    intros [= <-]. constructor; eauto.
Qed.

Lemma array_map_total {A B : Type} (f : A → nat → result B) (items : list A)
    (index : nat) :
  Forall (λ item, ∀ i, ∃ b, f item i = Ok b) items →
  ∃ bs, array_map f items index = Ok bs.
Proof.
  intros Hitems. revert index.
  induction Hitems as [|item items Hitem _ IH]; intros index; simpl; [eauto|].
  destruct (Hitem index) as [b ->]. destruct (IH (S index)) as [bs ->]. simpl. eauto.
Qed.

Lemma array_map_throw {A B : Type} (f : A → nat → result B) (items : list A)
    (index : nat) (item : A) :
  item ∈ items → (∀ i, ∃ e, f item i = Throw e) →
  ∃ e, array_map f items index = Throw e.
Proof.
  intros Hin Hitem. revert index.
  induction Hin as [item items|item item' items _ IH]; intros index; simpl.
  - destruct (Hitem index) as [e ->]. eauto.
  - destruct (f item' index); [|eauto]. simpl.
    destruct (IH Hitem (S index)) as [e ->]. eauto.
Qed.

(** ** [normalizeAccount] *)

Lemma normalizeAccount_ok (env : Env) (account : JSValue) (index : nat)
    (sourcePath : string) (a : AccountDefinition) :
  normalizeAccount env account index sourcePath = Ok a →
  get_property account "id" = JString (id a)
  ∧ JS.trim (id a) ≠ ""
  ∧ ∃ credential,
      get_property account "github_token" = JString credential
      ∧ JS.trim credential ≠ ""
      ∧ resolveEnvReferences env credential (id a) = Ok (githubToken a).
Proof.
  unfold normalizeAccount.
  destruct account as [| | | | |items|props]; try done.
  destruct (get_property (JObject props) "id") as [| | | |i| |]; try done.
  case_bool_decide as Hid; [done|].
  destruct (get_property (JObject props) "github_token") as [| | | |t| |]; try done.
  case_bool_decide as Htoken; [done|].
  destruct (resolveEnvReferences env t i) as [t'|] eqn:Ht; [|done]. simpl.
  intros [= <-]. simpl. eauto 10.
Qed.

Lemma truthy_true (s : string) : JS.truthy s = true ↔ s ≠ "".
Proof. by destruct s. Qed.

Lemma emit_all_set (env : Env) (accountId : string) (tokens : list Scanner.token) :
  forallb (variable_set env)
    (omap (λ t, match t with
                | Scanner.Reference _ name => Some name
                | Scanner.Literal _ => None
                end) tokens) = true →
  ∃ text, Scanner.emit env accountId tokens = Ok text.
Proof.
  induction tokens as [|t tokens IH]; simpl; [eauto|].
  destruct t as [c|form name]; simpl.
  - intros [text ->]%IH. simpl. eauto.
  - intros [Hname [text ->]%IH]%andb_prop. unfold Scanner.lookup.
    unfold variable_set in Hname. destruct (env !! name) as [value|]; [|done].
    apply truthy_true in Hname. rewrite bool_decide_eq_false_2 by done. simpl. eauto.
Qed.

Lemma normalizeAccount_valid (env : Env) (entry : JSValue) (index : nat)
    (sourcePath : string) :
  valid_entry env entry = true →
  ∃ a, normalizeAccount env entry index sourcePath = Ok a.
Proof.
  unfold valid_entry, normalizeAccount.
  destruct entry as [| | | | | |props]; try done. simpl.
  destruct (props !! "id") as [[| | | |i| |]|]; try done.
  destruct (props !! "github_token") as [[| | | |t| |]|]; try done. simpl.
  intros [[Hid Htoken]%andb_prop Hrefs]%andb_prop.
  apply truthy_true in Hid, Htoken.
  rewrite !bool_decide_eq_false_2 by done.
  rewrite resolveEnvReferences_scanner.
  destruct (emit_all_set env i _ Hrefs) as [text Htext].
  unfold Scanner.resolve. rewrite Htext. simpl. eauto.
Qed.

(** A credential that does not resolve fails its entry, whatever else the
    entry holds. *)
Lemma normalizeAccount_throw (env : Env) (entry : JSValue) (index : nat)
    (sourcePath credential : string) :
  get_property entry "github_token" = JString credential →
  (∀ accountId, ∃ e, resolveEnvReferences env credential accountId = Throw e) →
  ∃ e, normalizeAccount env entry index sourcePath = Throw e.
Proof.
  intros Hcredential Hthrow. unfold normalizeAccount.
  destruct entry as [| | | | |items|props]; try done.
  rewrite Hcredential.
  destruct (get_property (JObject props) "id") as [| | | |i| |]; eauto.
  case_bool_decide; [eauto|]. case_bool_decide; [eauto|].
  destruct (Hthrow i) as [e ->]. simpl. eauto.
Qed.

Section AccountConfigFacts.

Context `{Imports}.

(** What [parseConfig] does once the document has its sequence of
    accounts. *)
Lemma parseConfig_entries (env : Env) (raw sourcePath : string) (document : JSValue)
    (entries : list JSValue) :
  parse raw = inr document →
  get_property document "accounts" = JArray entries →
  entries ≠ [] →
  parseConfig env raw sourcePath
  = accounts ←
      array_map (λ account index, normalizeAccount env account index sourcePath)
        entries 0;
    match accounts with
    | first :: _ => Ok {| accounts := accounts; defaultAccountId := id first |}
    | [] => Throw (Error "Cannot read properties of undefined (reading 'id')")
    end.
Proof.
  intros Hparse Haccounts Hne. unfold parseConfig. rewrite Hparse.
  destruct document as [| | | | | |props]; try done. simpl.
  simpl in Haccounts. rewrite Haccounts. by destruct entries.
Qed.

(** The default account of a parsed configuration is its first account. *)
Lemma parseConfig_default (env : Env) (raw sourcePath : string)
    (config : AccountsConfig) :
  parseConfig env raw sourcePath = Ok config →
  ∃ first, head (accounts config) = Some first
           ∧ defaultAccountId config = id first.
Proof.
  unfold parseConfig.
  destruct (match parse raw with inl _ => _ | inr _ => _ end) as [document|];
    [|done]. simpl.
  destruct (get_property document "accounts") as [| | | | |[|entry entries]|];
    try done.
  destruct (array_map _ _ _) as [[|first accounts]|]; try done. simpl.
  intros [= <-]. eauto.
Qed.

Lemma getAccountsConfig_hit (w : World) (config : AccountsConfig) :
  getAccountsConfig w (Some config) = (Ok config, Some config).
Proof. reflexivity. Qed.

Lemma getAccountsConfig_miss (w : World) :
  getAccountsConfig w None
  = match read_source w with
    | Ok parsed => (Ok parsed, Some parsed)
    | Throw e => (Throw e, None)
    end.
Proof. reflexivity. Qed.

Lemma getAccountsConfig_ok (w : World) (cachedConfig cachedConfig' : option AccountsConfig)
    (config : AccountsConfig) :
  getAccountsConfig w cachedConfig = (Ok config, cachedConfig') →
  cachedConfig' = Some config.
Proof.
  destruct cachedConfig as [cached|].
  - rewrite getAccountsConfig_hit. by intros [= <- <-].
  - rewrite getAccountsConfig_miss. destruct (read_source w); [|done].
    by intros [= <- <-].
Qed.

Lemma getAccountsConfig_throw (w : World) (cachedConfig cachedConfig' : option AccountsConfig)
    (e : exn) :
  getAccountsConfig w cachedConfig = (Throw e, cachedConfig') →
  cachedConfig = None ∧ cachedConfig' = None ∧ read_source w = Throw e.
Proof.
  destruct cachedConfig as [cached|]; [done|].
  rewrite getAccountsConfig_miss. destruct (read_source w); [done|].
  by intros [= <- <-].
Qed.

Lemma read_source_default (w : World) (config : AccountsConfig) :
  read_source w = Ok config → default_is_first config.
Proof.
  unfold read_source. destruct (readConfigFile w _); [|done]. simpl.
  apply parseConfig_default.
Qed.

Lemma getAccountsConfig_default (w : World)
    (cachedConfig cachedConfig' : option AccountsConfig) (r : result AccountsConfig) :
  (∀ config, cachedConfig = Some config → default_is_first config) →
  getAccountsConfig w cachedConfig = (r, cachedConfig') →
  (∀ config, r = Ok config → default_is_first config)
  ∧ (∀ config, cachedConfig' = Some config → default_is_first config).
Proof.
  intros Hcache. destruct cachedConfig as [cached|].
  - rewrite getAccountsConfig_hit. intros [= <- <-].
    split; intros config [= <-]; by apply Hcache.
  - rewrite getAccountsConfig_miss.
    destruct (read_source w) as [parsed|] eqn:Hread; intros [= <- <-].
    + apply read_source_default in Hread. split; by intros config [= <-].
    + done.
Qed.

Lemma run_default (calls : list call) (cachedConfig : option AccountsConfig)
    (config : AccountsConfig) :
  (∀ cached, cachedConfig = Some cached → default_is_first cached) →
  Ok config ∈ (run calls cachedConfig).1 →
  default_is_first config.
Proof.
  revert cachedConfig.
  induction calls as [|[w|] calls IH]; intros cachedConfig Hcache; simpl.
  - by intros ?%elem_of_nil.
  - destruct (getAccountsConfig w cachedConfig) as [r cachedConfig'] eqn:Hget.
    destruct (getAccountsConfig_default _ _ _ _ Hcache Hget) as [Hr Hcache'].
    specialize (IH cachedConfig' Hcache').
    destruct (run calls cachedConfig') as [rs final]. simpl in *.
    intros [<-|Hin]%elem_of_cons; eauto.
  - apply IH. done.
Qed.

Lemma read_source_valid (w : World) (raw : string) (document : JSValue)
    (entries : list JSValue) :
  files w !! configPath w = Some raw →
  parse raw = inr document →
  get_property document "accounts" = JArray entries →
  entries ≠ [] →
  forallb (valid_entry (env w)) entries = true →
  ∃ config,
    read_source w = Ok config
    ∧ Forall2
        (λ entry account,
           get_property entry "id" = JString (id account)
           ∧ ∃ credential,
               get_property entry "github_token" = JString credential
               ∧ resolveEnvReferences (env w) credential (id account)
                 = Ok (githubToken account))
        entries (accounts config)
    ∧ ∃ first, head (accounts config) = Some first
               ∧ defaultAccountId config = id first.
Proof.
  intros Hfile Hparse Haccounts Hne Hvalid.
  unfold read_source, readConfigFile. rewrite Hfile. simpl.
  rewrite (parseConfig_entries _ _ _ _ _ Hparse Haccounts Hne).
  destruct (array_map_total
              (λ account index, normalizeAccount (env w) account index (configPath w))
              entries 0) as [accounts Hmap].
  { apply Forall_forall. intros entry Hin i.
    apply normalizeAccount_valid.
    rewrite forallb_forall in Hvalid. apply Hvalid. by apply list_elem_of_In. }
  rewrite Hmap. simpl.
  apply array_map_ok in Hmap.
  destruct accounts as [|first accounts].
  - apply Forall2_nil_inv_r in Hmap. done.
  - eexists. split; [done|]. simpl. split; [|eauto].
    eapply Forall2_impl; [exact Hmap|].
    intros entry account [i Hi]. apply normalizeAccount_ok in Hi.
    destruct Hi as (Hid & _ & credential & Hc & _ & Hr). eauto.
Qed.

Lemma read_source_throw (w : World) (raw : string) (document : JSValue)
    (entries : list JSValue) (entry : JSValue) (credential : string) :
  files w !! configPath w = Some raw →
  parse raw = inr document →
  get_property document "accounts" = JArray entries →
  entry ∈ entries →
  get_property entry "github_token" = JString credential →
  (∀ accountId, ∃ e, resolveEnvReferences (env w) credential accountId = Throw e) →
  ∃ e, read_source w = Throw e.
Proof.
  intros Hfile Hparse Haccounts Hin Hcredential Hthrow.
  unfold read_source, readConfigFile. rewrite Hfile. simpl.
  rewrite (parseConfig_entries _ _ _ _ _ Hparse Haccounts)
    by (intros ->; by apply elem_of_nil in Hin).
  destruct (array_map_throw
              (λ account index, normalizeAccount (env w) account index (configPath w))
              entries 0 entry Hin) as [e ->]; [|simpl; eauto].
  intros i. by eapply normalizeAccount_throw.
Qed.

End AccountConfigFacts.

(** * The claims of the specification *)

(** ** The gate *)

(** C1: with a non-blank master secret configured (the secret is the
    configured value without its surrounding whitespace), the gate lets a
    request through exactly when its Authorization header gives a candidate
    token equal to the secret; every other request is answered with status
    401, with the Anthropic-style body when the path begins with
    [/v1/messages] and with the OpenAI-style body otherwise. *)
Theorem masterKeyAuth_allows_matching_candidate (env : Env) (secret : string)
    (c : Context) :
  env !! "MASTER_KEY" = Some secret →
  JS.trim secret ≠ "" →
  (masterKeyAuth env c = Next ↔ candidate c = Some (JS.trim secret))
  ∧ (candidate c ≠ Some (JS.trim secret) →
     masterKeyAuth env c
     = Json
         (if JS.startsWith (req_path c) "/v1/messages" then
            JsonObject
              [("type", JsonString "error");
               ("error",
                 JsonObject
                   [("type", JsonString "authentication_error");
                    ("message", JsonString "Invalid or missing Authorization header")])]
          else
            JsonObject
              [("error",
                 JsonObject
                   [("message", JsonString "Invalid or missing Authorization header");
                    ("type", JsonString "invalid_api_key")])])
         401).
Proof.
  intros Henv Hsecret. unfold masterKeyAuth, configuredKey. rewrite Henv.
  cbn [default from_option]. unfold Datatypes.id.
  rewrite (truthy_nonempty _ Hsecret). cbn [negb].
  case_bool_decide as Hcandidate; cbn [negb].
  - split; [done|]. by intros [].
  - split.
    + split; [|done]. by destruct (JS.startsWith (req_path c) "/v1/messages").
    + intros _. by destruct (JS.startsWith (req_path c) "/v1/messages").
Qed.

Lemma masterKeyAuth_allows_matching_candidate_witness :
  masterKeyAuth Examples.secret_env
    (Examples.request (Some "Bearer secret") "/v1/responses") = Next
  ∧ masterKeyAuth Examples.secret_env (Examples.request None "/v1/messages")
    = Json
        (JsonObject
           [("type", JsonString "error");
            ("error",
              JsonObject
                [("type", JsonString "authentication_error");
                 ("message", JsonString "Invalid or missing Authorization header")])])
        401.
Proof.
  split.
  - apply (masterKeyAuth_allows_matching_candidate Examples.secret_env "secret");
      [reflexivity|vm_compute; discriminate|reflexivity].
  - apply (masterKeyAuth_allows_matching_candidate Examples.secret_env "secret"
             (Examples.request None "/v1/messages"));
      [reflexivity|vm_compute; discriminate|vm_compute; discriminate].
Defined.

(** C5: a candidate token comes only from a header that starts with the
    scheme [bearer], in either case, followed by one space; the candidate is
    what follows, trimmed.  Every other header, and an absent one, gives no
    candidate, and with a secret configured such a request is rejected. *)
Theorem candidate_needs_bearer_prefix (env : Env) (c : Context) :
  (∀ token,
     candidate c = Some token ↔
     ∃ scheme rest,
       req_header c AUTH_HEADER = Some (scheme +:+ " " +:+ rest)
       ∧ JS.toLowerCase scheme = "bearer" ∧ token = JS.trim rest)
  ∧ (req_header c AUTH_HEADER = None → candidate c = None)
  ∧ (candidate c = None → configuredKey env ≠ "" →
     ∃ body, masterKeyAuth env c = Json body 401).
Proof.
  split; [apply candidate_spec|]. split.
  - intros Hheader. destruct (candidate c) as [token|] eqn:Hcandidate; [|done].
    apply candidate_spec in Hcandidate as (scheme & rest & Hsome & _).
    congruence.
  - intros Hnone Hkey. unfold masterKeyAuth.
    rewrite (truthy_nonempty _ Hkey). cbn [negb]. rewrite Hnone.
    rewrite bool_decide_eq_false_2 by done. cbn [negb].
    destruct (JS.startsWith (req_path c) "/v1/messages"); eauto.
Qed.

(** A tab instead of the space, a space before the scheme, no space, another
    scheme, no header: none gives a candidate, all are rejected. *)
Lemma candidate_needs_bearer_prefix_witness :
  Forall
    (λ authorization,
       let c := Examples.request authorization "/v1/responses" in
       candidate c = None ∧ ∃ body, masterKeyAuth Examples.secret_env c = Json body 401)
    [Some ("Bearer" +:+ String "009" "secret"); Some " Bearer secret";
     Some "Bearersecret"; Some "Basic secret"; None].
Proof.
  repeat constructor;
    apply (candidate_needs_bearer_prefix Examples.secret_env);
    (reflexivity || (vm_compute; discriminate)).
Defined.

(** Whitespace after the prefix belongs to the rest and is trimmed with it:
    a second space after the scheme still gives the candidate. *)
Lemma bearer_prefix_extra_space :
  candidate (Examples.request (Some "Bearer  secret") "/v1/responses") = Some "secret"
  ∧ masterKeyAuth Examples.secret_env
      (Examples.request (Some "Bearer  secret") "/v1/responses") = Next.
Proof. split; reflexivity. Qed.

(** C7: with the master secret unset, or blank once trimmed, the gate is the
    handler that calls [next()] whatever the request: it lets every request
    through, with no header and with a wrong one alike. *)
Theorem masterKeyAuth_disabled_allows_all (env : Env) :
  (env !! "MASTER_KEY" = None
   ∨ ∃ value, env !! "MASTER_KEY" = Some value ∧ JS.trim value = "") →
  masterKeyAuth env = (λ _, Next) ∧ ∀ c, masterKeyAuth env c = Next.
Proof.
  intros Hkey.
  assert (configuredKey env = "") as Hblank.
  { unfold configuredKey. by destruct Hkey as [->|(value & -> & Hvalue)]. }
  assert (masterKeyAuth env = (λ _, Next)) as Hgate.
  { unfold masterKeyAuth. by rewrite Hblank. }
  split; [done|]. intros c. by rewrite Hgate.
Qed.

Lemma masterKeyAuth_disabled_allows_all_witness :
  masterKeyAuth ∅ (Examples.request None "/v1/responses") = Next
  ∧ masterKeyAuth {[ "MASTER_KEY" := "  " ]}
      (Examples.request (Some "Bearer wrong") "/v1/messages") = Next.
Proof.
  split.
  - apply (masterKeyAuth_disabled_allows_all ∅). left. reflexivity.
  - apply (masterKeyAuth_disabled_allows_all {[ "MASTER_KEY" := "  " ]}).
    right. exists "  ". split; reflexivity.
Defined.

(** ** Environment references *)

(** C8: a credential in which no reference [${NAME}] or [$NAME] starts is
    returned unchanged, whatever the environment. *)
Theorem resolveEnvReferences_no_reference (env : Env) (value accountId : string) :
  Scanner.has_reference value = false →
  resolveEnvReferences env value accountId = Ok value.
Proof.
  intros Hvalue. rewrite resolveEnvReferences_scanner.
  by apply resolve_no_reference.
Qed.

Lemma resolveEnvReferences_no_reference_witness :
  resolveEnvReferences ∅ "token-one" "primary" = Ok "token-one"
  ∧ resolveEnvReferences ∅ "a$ b${c" "primary" = Ok "a$ b${c".
Proof.
  split; apply resolveEnvReferences_no_reference; reflexivity.
Defined.

(** C9: the substitution by [ENV_REF_REGEX] is the left-to-right scanner
    with the two tokens [${NAME}] and [$NAME], [NAME] being one or more
    letters, digits and underscores; and a [$] at which neither token starts
    stays in the output as it is, with what precedes and what follows it
    resolved on their own: before a character that is neither a name
    character nor an opening brace, at the end of the text, and in [${}]. *)
Theorem resolveEnvReferences_is_scanner (env : Env) (accountId : string) :
  (∀ value,
     resolveEnvReferences env value accountId = Scanner.resolve env value accountId)
  ∧ (∀ pre post,
       Scanner.next_reference (String "$" post) = None →
       resolveEnvReferences env (pre +:+ String "$" post) accountId
       = head ← resolveEnvReferences env pre accountId;
         tail ← resolveEnvReferences env post accountId;
         Ok (head +:+ String "$" tail))
  ∧ (∀ c post,
       Scanner.name_char c = false → c ≠ "{"%char →
       Scanner.next_reference (String "$" (String c post)) = None)
  ∧ Scanner.next_reference "$" = None
  ∧ (∀ post, Scanner.next_reference ("${}" +:+ post) = None).
Proof.
  split; [intros value; apply resolveEnvReferences_scanner|].
  split; [|split; [|split]].
  - intros pre post Hpost. rewrite !resolveEnvReferences_scanner.
    rewrite resolve_before_dollar, (resolve_literal_dollar _ _ _ Hpost).
    destruct (Scanner.resolve env pre accountId) as [head|]; [|done]. simpl.
    by destruct (Scanner.resolve env post accountId).
  - intros c post Hc Hbrace.
    unfold Scanner.next_reference, Scanner.braced_reference, Scanner.bare_reference.
    rewrite (bool_decide_eq_false_2 _ Hbrace). simpl. by rewrite Hc.
  - reflexivity.
  - reflexivity.
Qed.

Lemma resolveEnvReferences_is_scanner_witness :
  resolveEnvReferences {[ "HOME" := "/root" ]} "$HOME costs 5$" "acc"
  = Ok "/root costs 5$"
  ∧ resolveEnvReferences {[ "HOME" := "/root" ]} "${} and $-" "acc"
    = Ok "${} and $-".
Proof.
  pose proof (resolveEnvReferences_is_scanner {[ "HOME" := "/root" ]} "acc")
    as (_ & Hliteral & _).
  split.
  - change "$HOME costs 5$" with ("$HOME costs 5" +:+ String "$" "").
    rewrite Hliteral by reflexivity. reflexivity.
  - change "${} and $-" with ("" +:+ String "$" "{} and $-").
    rewrite Hliteral by reflexivity. reflexivity.
Defined.

(** The text of a reference resolves to the value of its variable, and
    what precedes and follows it resolves on its own. *)
Lemma resolve_around_reference (env : Env) (accountId pre name post : string)
    (form : Scanner.ref_form) :
  Scanner.is_name name = true →
  Scanner.ends_before form post = true →
  resolveEnvReferences env (pre +:+ Scanner.token_text form name +:+ post) accountId
  = head ← resolveEnvReferences env pre accountId;
    value ← Scanner.lookup env accountId name;
    tail ← resolveEnvReferences env post accountId;
    Ok (head +:+ value +:+ tail).
Proof.
  intros Hname Hpost. rewrite !resolveEnvReferences_scanner.
  destruct (token_text_dollar form name) as [text Htext].
  pose proof (resolve_reference env accountId form name post Hname Hpost) as Href.
  rewrite Htext in *. rewrite append_cons in *.
  rewrite resolve_before_dollar, Href. simpl.
  destruct (Scanner.resolve env pre accountId) as [head|]; [|done]. simpl.
  destruct (Scanner.lookup env accountId name) as [value|]; [|done]. simpl.
  by destruct (Scanner.resolve env post accountId).
Qed.

(** A credential with a reference to an unset or empty variable does not
    resolve, under any account id. *)
Lemma resolve_missing_reference (env : Env) (accountId pre name post : string)
    (form : Scanner.ref_form) :
  Scanner.is_name name = true →
  Scanner.ends_before form post = true →
  env !! name = None ∨ env !! name = Some "" →
  ∃ missing,
    resolveEnvReferences env (pre +:+ Scanner.token_text form name +:+ post) accountId
    = Throw (env_var_missing accountId missing)
    ∧ (env !! missing = None ∨ env !! missing = Some "")
    ∧ (∀ head, resolveEnvReferences env pre accountId = Ok head → missing = name).
Proof.
  intros Hname Hpost Hmissing. rewrite resolve_around_reference by done.
  assert (Scanner.lookup env accountId name = Throw (env_var_missing accountId name))
    as ->.
  { unfold Scanner.lookup. by destruct Hmissing as [->| ->]. }
  destruct (resolveEnvReferences env pre accountId) as [head|e] eqn:Hpre; simpl.
  - exists name. eauto.
  - rewrite resolveEnvReferences_scanner in Hpre.
    apply emit_throw in Hpre as (missing & -> & Hunset).
    exists missing. split; [done|]. split; [done|]. by intros head [=].
Qed.

(** ** The configuration and its cache *)

Section Claims.

Context `{Imports}.

(** C2: when the file parses to a document whose [accounts] sequence has
    N ≥ 1 entries, all of them valid, resolving from an empty cache returns
    N accounts, entry by entry in the order of the document, each with the
    id of its entry and its credential resolved, and the default account id
    is the id of the first entry. *)
Theorem getAccountsConfig_keeps_every_entry (w : World) (raw : string)
    (document : JSValue) (entries : list JSValue) :
  files w !! configPath w = Some raw →
  parse raw = inr document →
  get_property document "accounts" = JArray entries →
  entries ≠ [] →
  forallb (valid_entry (env w)) entries = true →
  ∃ config,
    getAccountsConfig w None = (Ok config, Some config)
    ∧ List.length (accounts config) = List.length entries
    ∧ Forall2
        (λ entry account,
           get_property entry "id" = JString (id account)
           ∧ ∃ credential,
               get_property entry "github_token" = JString credential
               ∧ resolveEnvReferences (env w) credential (id account)
                 = Ok (githubToken account))
        entries (accounts config)
    ∧ ∃ first, head entries = Some first
               ∧ get_property first "id" = JString (defaultAccountId config).
Proof.
  intros Hfile Hparse Haccounts Hne Hvalid.
  destruct (read_source_valid w raw document entries Hfile Hparse Haccounts Hne Hvalid)
    as (config & Hread & Hentries & first & Hfirst & Hdefault).
  exists config. rewrite getAccountsConfig_miss, Hread.
  split; [done|]. split; [symmetry; by eapply Forall2_length|]. split; [done|].
  destruct Hentries as [|entry account entries' accounts' [Hid _] _]; [done|].
  exists entry. split; [done|]. simpl in Hfirst. injection Hfirst as <-.
  by rewrite Hdefault.
Qed.

(** C4: once a call has returned a configuration, a further call without a
    reset in between returns the same configuration and leaves the cache as
    it is, whatever the files and the environment have become; after a
    reset the next call reads the source afresh. *)
Theorem getAccountsConfig_cached_until_reset (w : World)
    (cachedConfig cachedConfig' : option AccountsConfig) (config : AccountsConfig) :
  getAccountsConfig w cachedConfig = (Ok config, cachedConfig') →
  (∀ w', getAccountsConfig w' cachedConfig' = (Ok config, cachedConfig'))
  ∧ (∀ w',
       getAccountsConfig w' (resetAccountsConfigCache cachedConfig')
       = match read_source w' with
         | Ok parsed => (Ok parsed, Some parsed)
         | Throw e => (Throw e, None)
         end).
Proof.
  intros Hget. apply getAccountsConfig_ok in Hget as ->. split.
  - intros w'. apply getAccountsConfig_hit.
  - intros w'. apply getAccountsConfig_miss.
Qed.

(** C10: a call that throws, for whatever reason, found the cache empty and
    leaves it empty, so the next call reads the source afresh. *)
Theorem getAccountsConfig_failure_not_cached (w : World)
    (cachedConfig cachedConfig' : option AccountsConfig) (e : exn) :
  getAccountsConfig w cachedConfig = (Throw e, cachedConfig') →
  cachedConfig = None
  ∧ cachedConfig' = None
  ∧ ∀ w',
      getAccountsConfig w' cachedConfig'
      = match read_source w' with
        | Ok parsed => (Ok parsed, Some parsed)
        | Throw e => (Throw e, None)
        end.
Proof.
  intros (-> & -> & _)%getAccountsConfig_throw.
  split; [done|]. split; [done|]. intros w'. apply getAccountsConfig_miss.
Qed.

(** C6, amended: whatever the calls since the start of the process, every
    configuration returned has a first account, which is a member of its
    accounts, and the default account id is the id of that account.  (Ids
    are not compared with each other.) *)
Theorem default_account_is_first_member (calls : list call) (config : AccountsConfig) :
  Ok config ∈ (run calls None).1 →
  ∃ account,
    head (accounts config) = Some account
    ∧ account ∈ accounts config
    ∧ defaultAccountId config = id account.
Proof.
  intros Hin. apply run_default in Hin as (first & Hfirst & Hdefault); [|done].
  exists first. split; [done|]. split; [|done].
  destruct (accounts config) as [|a l]; [done|].
  injection Hfirst as ->. apply list_elem_of_here.
Qed.

(** C3, amended: in a credential with a reference to [name], braced
    anywhere or bare before a character that cannot continue the name, a
    set and non-empty variable puts its value in the place of the reference
    in the resolved credential, which there is when what precedes and what
    follows the reference resolve; an unset or empty variable makes the
    resolution throw, naming the account and the leftmost referenced
    variable that is unset or empty, which is [name] when what precedes the
    reference resolves; and then the whole configuration fails: the call
    throws and the cache stays empty. *)
Theorem env_reference_resolution (w : World) (accountId pre name post : string)
    (form : Scanner.ref_form) :
  Scanner.is_name name = true →
  Scanner.ends_before form post = true →
  let credential := pre +:+ Scanner.token_text form name +:+ post in
  (∀ value,
     env w !! name = Some value → value ≠ "" →
     resolveEnvReferences (env w) credential accountId
     = head ← resolveEnvReferences (env w) pre accountId;
       tail ← resolveEnvReferences (env w) post accountId;
       Ok (head +:+ value +:+ tail))
  ∧ (env w !! name = None ∨ env w !! name = Some "" →
     (∃ missing,
        resolveEnvReferences (env w) credential accountId
        = Throw (env_var_missing accountId missing)
        ∧ (env w !! missing = None ∨ env w !! missing = Some "")
        ∧ (∀ head,
             resolveEnvReferences (env w) pre accountId = Ok head → missing = name))
     ∧ (∀ raw document entries entry,
          files w !! configPath w = Some raw →
          parse raw = inr document →
          get_property document "accounts" = JArray entries →
          entry ∈ entries →
          get_property entry "github_token" = JString credential →
          ∃ e, getAccountsConfig w None = (Throw e, None))).
Proof.
  intros Hname Hpost credential. split.
  - intros value Hvalue Hne. unfold credential.
    rewrite resolve_around_reference by done.
    unfold Scanner.lookup. rewrite Hvalue, bool_decide_eq_false_2 by done.
    by destruct (resolveEnvReferences (env w) pre accountId).
  - intros Hmissing. split.
    + by apply resolve_missing_reference.
    + intros raw document entries entry Hfile Hparse Haccounts Hin Hcredential.
      destruct (read_source_throw w raw document entries entry credential
                  Hfile Hparse Haccounts Hin Hcredential) as [e He].
      * intros owner.
        destruct (resolve_missing_reference (env w) owner pre name post form
                    Hname Hpost Hmissing) as (missing & Hthrow & _).
        eauto.
      * exists e. by rewrite getAccountsConfig_miss, He.
Qed.

End Claims.

(** ** The claims at concrete inputs *)

Lemma getAccountsConfig_keeps_every_entry_witness :
  ∃ config,
    getAccountsConfig (H := Examples.imports)
      Examples.two_accounts_world None
    = (Ok config, Some config)
    ∧ List.length (accounts config) = 2
    ∧ defaultAccountId config = "primary".
Proof.
  destruct (getAccountsConfig_keeps_every_entry (H := Examples.imports)
              Examples.two_accounts_world
              Examples.two_accounts_yaml
              (Examples.document_of Examples.two_accounts) Examples.two_accounts
              ltac:(vm_compute; reflexivity) ltac:(vm_compute; reflexivity) ltac:(vm_compute; reflexivity)
              ltac:(discriminate) ltac:(vm_compute; reflexivity))
    as (config & Hget & Hlength & _ & first & Hfirst & Hdefault).
  exists config. split; [exact Hget|]. split; [exact Hlength|].
  injection Hfirst as <-. vm_compute in Hdefault. by injection Hdefault.
Defined.

Lemma getAccountsConfig_cached_until_reset_witness :
  getAccountsConfig (H := Examples.imports)
    Examples.duplicate_world (Some Examples.two_accounts_config)
  = (Ok Examples.two_accounts_config, Some Examples.two_accounts_config)
  ∧ getAccountsConfig (H := Examples.imports)
      Examples.duplicate_world
      (resetAccountsConfigCache (Some Examples.two_accounts_config))
    = (Ok Examples.duplicate_config, Some Examples.duplicate_config).
Proof.
  destruct (getAccountsConfig_cached_until_reset (H := Examples.imports)
              Examples.two_accounts_world None
              (Some Examples.two_accounts_config) Examples.two_accounts_config
              ltac:(vm_compute; reflexivity)) as [Hhit Hreset].
  split; [apply Hhit|]. rewrite Hreset. reflexivity.
Defined.

Lemma getAccountsConfig_failure_not_cached_witness :
  getAccountsConfig (H := Examples.imports) Examples.no_file None
  = (Throw (ENOENT "/srv/config.yaml"), None)
  ∧ getAccountsConfig (H := Examples.imports)
      Examples.two_accounts_world None
    = (Ok Examples.two_accounts_config, Some Examples.two_accounts_config).
Proof.
  split; [reflexivity|].
  destruct (getAccountsConfig_failure_not_cached (H := Examples.imports)
              Examples.no_file None None (ENOENT "/srv/config.yaml")
              ltac:(vm_compute; reflexivity))
    as (_ & _ & Hnext).
  rewrite Hnext. reflexivity.
Defined.

Lemma default_account_is_first_member_witness :
  ∃ account,
    head (accounts Examples.duplicate_config) = Some account
    ∧ account ∈ accounts Examples.duplicate_config
    ∧ defaultAccountId Examples.duplicate_config = id account.
Proof.
  apply (default_account_is_first_member (H := Examples.imports)
           [Resolve Examples.two_accounts_world; Reset;
            Resolve Examples.duplicate_world]).
  vm_compute. right. left.
Defined.

(** C6 as stated fails: two entries under one id are both returned. *)
Lemma duplicate_ids_returned :
  Ok Examples.duplicate_config
    ∈ (run (H := Examples.imports)
         [Resolve Examples.duplicate_world] None).1
  ∧ id <$> accounts Examples.duplicate_config = ["dup"; "dup"]
  ∧ ¬ NoDup (id <$> accounts Examples.duplicate_config).
Proof.
  split; [vm_compute; left|]. split; [reflexivity|].
  intros Hnodup. apply NoDup_cons_1_1 in Hnodup. apply Hnodup. left.
Qed.

Lemma env_reference_resolution_witness :
  resolveEnvReferences {[ "A" := "alpha" ]} "${A}${B}" "acc"
  = Throw (env_var_missing "acc" "B")
  ∧ ∃ e,
      getAccountsConfig (H := Examples.imports)
        Examples.references_world None
      = (Throw e, None).
Proof.
  destruct (env_reference_resolution (H := Examples.imports)
              Examples.references_world
              "acc" "${A}" "B" "" Scanner.Braced
              ltac:(vm_compute; reflexivity) ltac:(vm_compute; reflexivity))
    as [_ Hmissing].
  destruct (Hmissing ltac:(left; vm_compute; reflexivity)) as [(missing & Hthrow & _ & Hname) Hconfig].
  split.
  - rewrite (Hname "alpha" ltac:(vm_compute; reflexivity)) in Hthrow. exact Hthrow.
  - apply (Hconfig Examples.references_yaml (Examples.document_of Examples.references)
             Examples.references (Examples.account_entry "acc" "${A}${B}"));
      [vm_compute; reflexivity|vm_compute; reflexivity|vm_compute; reflexivity|left|vm_compute; reflexivity].
Defined.

(** C3 as stated fails: with two references to unset variables the error
    names the first, and not the second. *)
Lemma later_missing_variable_not_named :
  "${A}${B}" = "${A}" +:+ Scanner.token_text Scanner.Braced "B" +:+ ""
  ∧ Scanner.is_name "B" = true
  ∧ (∅ : Env) !! "B" = None
  ∧ resolveEnvReferences ∅ "${A}${B}" "acc" = Throw (env_var_missing "acc" "A")
  ∧ env_var_missing "acc" "A" ≠ env_var_missing "acc" "B".
Proof.
  repeat split; try reflexivity. vm_compute. discriminate.
Qed.

(** * Further properties of the code *)

(** ** Environment references: when they resolve, and what is thrown *)

Lemma lookup_set (env : Env) (accountId name : string) :
  variable_set env name = true →
  ∃ value, Scanner.lookup env accountId name = Ok value ∧ value ≠ "".
Proof.
  unfold variable_set, Scanner.lookup. destruct (env !! name) as [value|]; [|done].
  intros Hvalue%truthy_true. rewrite bool_decide_eq_false_2 by done. eauto.
Qed.

Lemma lookup_unset (env : Env) (accountId name : string) :
  variable_set env name = false →
  Scanner.lookup env accountId name = Throw (env_var_missing accountId name).
Proof.
  unfold variable_set, Scanner.lookup. destruct (env !! name) as [[|c value]|]; done.
Qed.

Lemma emit_ok_all_set (env : Env) (accountId : string) (tokens : list Scanner.token)
    (text : string) :
  Scanner.emit env accountId tokens = Ok text →
  forallb (variable_set env)
    (omap (λ t, match t with
                | Scanner.Reference _ name => Some name
                | Scanner.Literal _ => None
                end) tokens) = true.
Proof.
  revert text. induction tokens as [|t tokens IH]; intros text; [done|].
  destruct t as [c|form name]; simpl.
  - destruct (Scanner.emit env accountId tokens) as [tail|]; [|done]. eauto.
  - destruct (variable_set env name) eqn:Hname.
    + destruct (Scanner.emit env accountId tokens) as [tail|]; [eauto|].
      by destruct (Scanner.lookup env accountId name).
    + by rewrite lookup_unset.
Qed.

Lemma emit_first_unset (env : Env) (accountId : string) (tokens : list Scanner.token)
    (name : string) :
  List.find (λ n, negb (variable_set env n))
    (omap (λ t, match t with
                | Scanner.Reference _ name => Some name
                | Scanner.Literal _ => None
                end) tokens) = Some name →
  Scanner.emit env accountId tokens = Throw (env_var_missing accountId name).
Proof.
  induction tokens as [|t tokens IH]; [done|].
  destruct t as [c|form name']; simpl.
  - intros Hfind. by rewrite IH.
  - destruct (variable_set env name') eqn:Hname; simpl.
    + intros Hfind. destruct (lookup_set env accountId name' Hname) as (value & -> & _).
      simpl. by rewrite IH.
    + intros [= <-]. by rewrite lookup_unset.
Qed.

(** X1: a credential resolves exactly when every variable it refers to is
    set and not empty. *)
Theorem resolveEnvReferences_ok_iff (env : Env) (value accountId : string) :
  (∃ text, resolveEnvReferences env value accountId = Ok text)
  ↔ forallb (variable_set env) (Scanner.references value) = true.
Proof.
  rewrite resolveEnvReferences_scanner. unfold Scanner.resolve, Scanner.references.
  split.
  - intros [text Htext]. by eapply emit_ok_all_set.
  - apply emit_all_set.
Qed.

(** X2: when some referenced variable is unset or empty, the exception
    names the account and the first such variable in reading order, whatever
    comes after it. *)
Theorem resolveEnvReferences_first_unset (env : Env) (value accountId name : string) :
  List.find (λ n, negb (variable_set env n)) (Scanner.references value) = Some name →
  resolveEnvReferences env value accountId = Throw (env_var_missing accountId name).
Proof.
  intros Hfind. rewrite resolveEnvReferences_scanner.
  by apply emit_first_unset.
Qed.

Lemma resolveEnvReferences_first_unset_witness :
  resolveEnvReferences {[ "A" := "alpha" ]} "${A}-$B-${C}" "acc"
  = Throw (env_var_missing "acc" "B").
Proof.
  apply resolveEnvReferences_first_unset. vm_compute. reflexivity.
Defined.

(** ** Accounts that are returned *)

Lemma scan_nonempty (c : ascii) (s : string) : Scanner.scan 0 (String c s) ≠ [].
Proof. simpl. by destruct (Scanner.next_reference (String c s)) as [[form name]|]. Qed.

Lemma append_nonempty (s t : string) : s ≠ "" → s +:+ t ≠ "".
Proof. by destruct s. Qed.

Lemma emit_nonempty (env : Env) (accountId : string) (tokens : list Scanner.token)
    (text : string) :
  tokens ≠ [] → Scanner.emit env accountId tokens = Ok text → text ≠ "".
Proof.
  destruct tokens as [|[c|form name] tokens]; [done| |]; intros _; simpl.
  - destruct (Scanner.emit env accountId tokens); [|done]. by intros [= <-].
  - destruct (variable_set env name) eqn:Hname.
    + destruct (lookup_set env accountId name Hname) as (value & -> & Hvalue). simpl.
      destruct (Scanner.emit env accountId tokens); [|done]. intros [= <-].
      by apply append_nonempty.
    + by rewrite lookup_unset.
Qed.

Lemma trim_nonempty (s : string) : JS.trim s ≠ "" → s ≠ "".
Proof. by destruct s. Qed.

Lemma normalizeAccount_ok_valid (env : Env) (account : JSValue) (index : nat)
    (sourcePath : string) (a : AccountDefinition) :
  normalizeAccount env account index sourcePath = Ok a →
  valid_entry env account = true
  ∧ JS.trim (id a) ≠ "" ∧ githubToken a ≠ "".
Proof.
  intros Hok.
  assert (∃ props, account = JObject props) as [props ->].
  { destruct account; try done. eauto. }
  apply normalizeAccount_ok in Hok
    as (Hid & Hidne & credential & Hcredential & Hcne & Hresolve).
  simpl in Hid, Hcredential. unfold valid_entry.
  destruct (props !! "id") as [idv|]; [|done].
  destruct (props !! "github_token") as [tokenv|]; [|done].
  simpl in Hid, Hcredential. subst idv tokenv.
  rewrite !(proj2 (truthy_true _)) by done. simpl.
  rewrite resolveEnvReferences_scanner in Hresolve. split; [|split; [done|]].
  - by eapply emit_ok_all_set.
  - apply trim_nonempty in Hcne. destruct credential as [|c credential]; [done|].
    eapply emit_nonempty; [|exact Hresolve]. apply scan_nonempty.
Qed.

Section AccountsReturned.

Context `{Imports}.

(** What holds of everything read from the source holds of everything the
    calls return. *)
Lemma run_invariant (P : AccountsConfig → Prop) (calls : list call)
    (cachedConfig : option AccountsConfig) (config : AccountsConfig) :
  (∀ w parsed, read_source w = Ok parsed → P parsed) →
  (∀ cached, cachedConfig = Some cached → P cached) →
  Ok config ∈ (run calls cachedConfig).1 →
  P config.
Proof.
  intros Hread. revert cachedConfig.
  induction calls as [|[w|] calls IH]; intros cachedConfig Hcache; simpl.
  - by intros ?%elem_of_nil.
  - destruct cachedConfig as [cached|].
    + rewrite getAccountsConfig_hit.
      specialize (IH (Some cached) Hcache).
      destruct (run calls (Some cached)) as [rs final]. simpl in *.
      intros [[= ->]|Hin]%elem_of_cons; eauto.
    + rewrite getAccountsConfig_miss.
      destruct (read_source w) as [parsed|e] eqn:Hparsed.
      * specialize (IH (Some parsed)).
        destruct (run calls (Some parsed)) as [rs final]. simpl in *.
        intros [[= ->]|Hin]%elem_of_cons; [by eapply Hread|].
        apply IH; [|done]. intros cached [= <-]. by eapply Hread.
      * specialize (IH None).
        destruct (run calls None) as [rs final]. simpl in *.
        intros [[=]|Hin]%elem_of_cons. by apply IH.
  - apply IH. done.
Qed.

(** What a successful read of the source went through. *)
Lemma read_source_ok (w : World) (config : AccountsConfig) :
  read_source w = Ok config →
  ∃ raw document entries,
    files w !! configPath w = Some raw
    ∧ parse raw = inr document
    ∧ get_property document "accounts" = JArray entries
    ∧ entries ≠ []
    ∧ array_map (λ account index, normalizeAccount (env w) account index (configPath w))
        entries 0 = Ok (accounts config).
Proof.
  unfold read_source, readConfigFile.
  destruct (files w !! configPath w) as [raw|]; [|done]. simpl.
  unfold parseConfig. destruct (parse raw) as [message|document] eqn:Hparse; [done|].
  assert (∀ document',
            (match document' with
             | JArray ((_ :: _) as accountsValue) =>
                 accounts ←
                   array_map
                     (λ account index,
                        normalizeAccount (env w) account index (configPath w))
                     accountsValue 0;
                 match accounts with
                 | first :: _ =>
                     Ok {| accounts := accounts; defaultAccountId := id first |}
                 | [] => Throw (Error "Cannot read properties of undefined (reading 'id')")
                 end
             | _ =>
                 Throw (Error ("Accounts config must define at least one account in "
                               +:+ configPath w))
             end = Ok config) →
            ∃ entries, document' = JArray entries ∧ entries ≠ []
              ∧ array_map
                  (λ account index,
                     normalizeAccount (env w) account index (configPath w))
                  entries 0 = Ok (accounts config)) as Harray.
  { intros [| | | | |[|entry entries]|]; try done.
    destruct (array_map _ _ _) as [[|first accounts]|] eqn:Hmap; try done. simpl.
    intros [= <-]. eexists. by repeat split. }
  destruct document; simpl; try done;
    intros (entries & Hentries & Hne & Hmap)%Harray;
    try done.
  exists raw, (JObject props), entries. by repeat split.
Qed.

(** X3: a configuration comes back only when the whole document is valid:
    the file was read and parsed, its [accounts] sequence is not empty, and
    every entry is a mapping with a non-blank [id], a non-blank credential
    and all referenced variables set. *)
Theorem getAccountsConfig_ok_all_valid (w : World) (config : AccountsConfig)
    (cachedConfig' : option AccountsConfig) :
  getAccountsConfig w None = (Ok config, cachedConfig') →
  ∃ raw document entries,
    files w !! configPath w = Some raw
    ∧ parse raw = inr document
    ∧ get_property document "accounts" = JArray entries
    ∧ entries ≠ []
    ∧ forallb (valid_entry (env w)) entries = true.
Proof.
  rewrite getAccountsConfig_miss.
  destruct (read_source w) as [parsed|] eqn:Hread; [|done]. intros [= -> _].
  apply read_source_ok in Hread
    as (raw & document & entries & Hfile & Hparse & Haccounts & Hne & Hmap).
  exists raw, document, entries. repeat split; try done.
  apply array_map_ok in Hmap. apply forallb_forall. intros entry Hin.
  apply list_elem_of_In, list_elem_of_lookup in Hin as [k Hk].
  destruct (Forall2_lookup_l _ _ _ _ _ Hmap Hk) as (a & _ & i & Hi).
  by apply normalizeAccount_ok_valid in Hi as [Hvalid _].
Qed.


Lemma read_source_accounts (w : World) (config : AccountsConfig) :
  read_source w = Ok config →
  Forall (λ a, JS.trim (id a) ≠ "" ∧ githubToken a ≠ "") (accounts config).
Proof.
  intros (raw & document & entries & _ & _ & _ & _ & Hmap)%read_source_ok.
  apply array_map_ok in Hmap. apply Forall_lookup. intros k a Hk.
  destruct (Forall2_lookup_r _ _ _ _ _ Hmap Hk) as (entry & _ & i & Hi).
  by apply normalizeAccount_ok_valid in Hi as [_ Ha].
Qed.

(** X4: whatever the calls since the start of the process, every account of
    every configuration returned has a non-blank id and a non-empty resolved
    credential. *)
Theorem returned_accounts_are_filled (calls : list call) (config : AccountsConfig) :
  Ok config ∈ (run calls None).1 →
  Forall (λ a, JS.trim (id a) ≠ "" ∧ githubToken a ≠ "") (accounts config).
Proof.
  apply (run_invariant
           (λ config, Forall (λ a, JS.trim (id a) ≠ "" ∧ githubToken a ≠ "")
                        (accounts config))).
  - intros w parsed. apply read_source_accounts.
  - done.
Qed.

(** ** Which entry fails, and with what *)

Lemma array_map_first_throw {A B : Type} (f : A → nat → result B)
    (good : list A) (bad : A) (rest : list A) (index : nat) (e : exn) :
  Forall (λ item, ∀ i, ∃ b, f item i = Ok b) good →
  f bad (index + List.length good) = Throw e →
  array_map f (good ++ bad :: rest) index = Throw e.
Proof.
  intros Hgood. revert index.
  induction Hgood as [|item good Hitem _ IH]; intros index; simpl.
  - rewrite Nat.add_0_r. by intros ->.
  - intros Hbad. destruct (Hitem index) as [b ->]. simpl.
    rewrite IH; [done|]. by rewrite Nat.add_succ_comm.
Qed.


(** X5: the entries are checked in the order of the document and the first
    one that is not valid decides the exception, raised with its position
    (counted from 0) as the index; nothing is returned and nothing cached. *)
Theorem first_invalid_entry_decides (w : World) (raw : string) (document : JSValue)
    (good : list JSValue) (bad : JSValue) (rest : list JSValue) (e : exn) :
  files w !! configPath w = Some raw →
  parse raw = inr document →
  get_property document "accounts" = JArray (good ++ bad :: rest) →
  forallb (valid_entry (env w)) good = true →
  normalizeAccount (env w) bad (List.length good) (configPath w) = Throw e →
  getAccountsConfig w None = (Throw e, None).
Proof.
  intros Hfile Hparse Haccounts Hgood Hbad.
  rewrite getAccountsConfig_miss. unfold read_source, readConfigFile.
  rewrite Hfile. simpl.
  rewrite (parseConfig_entries _ _ _ _ _ Hparse Haccounts) by (by destruct good).
  rewrite (array_map_first_throw _ good bad rest 0 e); [done| |done].
  apply Forall_forall. intros entry Hin i. apply normalizeAccount_valid.
  rewrite forallb_forall in Hgood. apply Hgood. by apply list_elem_of_In.
Qed.


(** ** Calls without a reset *)

Lemma run_cached (calls : list call) (config : AccountsConfig) :
  Forall (λ c, c ≠ Reset) calls →
  (run calls (Some config)).1 = replicate (List.length calls) (Ok config).
Proof.
  induction 1 as [|[w|] calls Hcall _ IH]; [done| |done]. cbn [run].
  rewrite getAccountsConfig_hit.
  destruct (run calls (Some config)) as [rs final]. simpl in *. by rewrite IH.
Qed.

(** X7: as long as the cache is not reset, the calls throw until one
    returns a configuration, and every call after that returns that same
    configuration. *)
Theorem run_without_reset (calls : list call) :
  Forall (λ c, c ≠ Reset) calls →
  ∃ (failed : list (result AccountsConfig)) (n : nat) (config : option AccountsConfig),
    Forall is_throw failed
    ∧ (run calls None).1
      = failed ++ match config with
                  | Some config => replicate (S n) (Ok config)
                  | None => []
                  end.
Proof.
  induction 1 as [|[w|] calls Hcall Hcalls IH]; [| |done].
  - exists [], 0, None. by split.
  - cbn [run]. rewrite getAccountsConfig_miss.
    destruct (read_source w) as [parsed|e].
    + pose proof (run_cached calls parsed Hcalls) as Hcached.
      destruct (run calls (Some parsed)) as [rs final]. simpl in *.
      exists [], (List.length calls), (Some parsed). split; [done|].
      simpl. by rewrite Hcached.
    + destruct IH as (failed & n & config & Hfailed & Hrun).
      destruct (run calls None) as [rs final]. simpl in *.
      exists (Throw e :: failed), n, config. split; [by constructor|].
      simpl. by rewrite Hrun.
Qed.

(** ** The account the commands use *)

Lemma defaultAccount_first (config : AccountsConfig) :
  default_is_first config →
  ∃ first,
    head (accounts config) = Some first
    ∧ id first = defaultAccountId config
    ∧ runServer_defaultAccount config = Ok first
    ∧ checkUsage_defaultAccount config = Ok first.
Proof.
  intros (first & Hfirst & Hdefault). exists first.
  unfold runServer_defaultAccount, checkUsage_defaultAccount.
  destruct (accounts config) as [|a l]; [done|]. injection Hfirst as ->.
  simpl. rewrite Hdefault, bool_decide_eq_true_2 by done. done.
Qed.

(** X8: on every configuration the calls return, [start] and [check-usage]
    put the same account in the state: the first of the document, which
    carries the default id.  Neither raises its [No accounts configured]. *)
Theorem commands_use_first_account (calls : list call) (config : AccountsConfig) :
  Ok config ∈ (run calls None).1 →
  ∃ first,
    head (accounts config) = Some first
    ∧ id first = defaultAccountId config
    ∧ runServer_defaultAccount config = Ok first
    ∧ checkUsage_defaultAccount config = Ok first.
Proof.
  intros Hin. apply defaultAccount_first.
  revert Hin. apply (run_invariant default_is_first); [|done].
  intros w parsed. apply read_source_default.
Qed.

End AccountsReturned.

(** ** White space around texts *)

Lemma trimStart_blank (s : string) : is_blank s = true → JS.trimStart s = "".
Proof.
  induction s as [|c s IH]; [done|]. simpl.
  intros [Hc Hs]%andb_prop. rewrite Hc. by apply IH.
Qed.

Lemma trimStart_clean (s : string) : starts_clean s = true → JS.trimStart s = s.
Proof. destruct s as [|c s]; [done|]. simpl. by intros ->%negb_true_iff. Qed.

Lemma trimStart_append_blank (pad s : string) :
  is_blank pad = true → JS.trimStart (pad +:+ s) = JS.trimStart s.
Proof.
  induction pad as [|c pad IH]; [done|]. rewrite append_cons. simpl.
  intros [Hc Hpad]%andb_prop. rewrite Hc. by apply IH.
Qed.

Lemma trimStart_empty (s : string) : JS.trimStart s = "" → is_blank s = true.
Proof.
  induction s as [|c s IH]; [done|]. simpl.
  destruct (JS.is_ws c); [done|discriminate].
Qed.

Lemma trimStart_starts_clean (s : string) : starts_clean (JS.trimStart s) = true.
Proof.
  induction s as [|c s IH]; [done|]. simpl.
  destruct (JS.is_ws c) eqn:Hc; [done|]. simpl. by rewrite Hc.
Qed.

Lemma trimEnd_append_blank (s pad : string) :
  is_blank pad = true → JS.trimEnd (s +:+ pad) = JS.trimEnd s.
Proof.
  intros Hpad. induction s as [|c s IH].
  - rewrite append_nil_l. induction pad as [|d pad IHpad]; [done|].
    simpl in *. apply andb_prop in Hpad as [Hd Hpad]. by rewrite IHpad, Hd.
  - rewrite append_cons. simpl. by rewrite IH.
Qed.

Lemma trimEnd_idempotent (s : string) : JS.trimEnd (JS.trimEnd s) = JS.trimEnd s.
Proof.
  induction s as [|c s IH]; [done|]. simpl.
  destruct (JS.trimEnd s) as [|d t] eqn:Ht.
  - destruct (JS.is_ws c) eqn:Hc; [done|]. simpl. by rewrite Hc.
  - change (JS.trimEnd (String c (String d t)))
      with (match JS.trimEnd (String d t) with
            | "" => if JS.is_ws c then "" else String c ""
            | t' => String c t'
            end).
    by rewrite IH.
Qed.

Lemma trimEnd_empty (s : string) : starts_clean s = true → JS.trimEnd s = "" → s = "".
Proof.
  destruct s as [|c s]; [done|]. simpl. intros ->%negb_true_iff.
  by destruct (JS.trimEnd s).
Qed.

Lemma trimEnd_starts_clean (s : string) :
  starts_clean s = true → starts_clean (JS.trimEnd s) = true.
Proof.
  destruct s as [|c s]; [done|]. simpl. intros Hc.
  destruct (JS.trimEnd s); [|done]. apply negb_true_iff in Hc. rewrite Hc. simpl.
  by rewrite Hc.
Qed.

(** [trim] empties exactly the texts of white space. *)
Lemma trim_empty_iff (s : string) : JS.trim s = "" ↔ is_blank s = true.
Proof.
  unfold JS.trim. split.
  - intros Hs. apply trimStart_empty, trimEnd_empty; [|done].
    apply trimStart_starts_clean.
  - intros Hs. by rewrite trimStart_blank.
Qed.

(** White space around a trimmed text is trimmed away. *)
Lemma trim_padded (pad1 pad2 s : string) :
  is_blank pad1 = true → is_blank pad2 = true → JS.trim s ≠ "" →
  JS.trim (pad1 +:+ JS.trim s +:+ pad2) = JS.trim s.
Proof.
  intros Hpad1 Hpad2 Hs. unfold JS.trim at 1.
  rewrite trimStart_append_blank by done.
  assert (starts_clean (JS.trim s +:+ pad2) = true) as Hclean.
  { pose proof (trimEnd_starts_clean _ (trimStart_starts_clean s)) as Hclean.
    fold (JS.trim s) in Hclean. by destruct (JS.trim s). }
  rewrite trimStart_clean, trimEnd_append_blank by done.
  apply trimEnd_idempotent.
Qed.

(** ** More on the gate *)

(** X9: with a secret configured, the header made of the scheme in any
    case, one space, and the secret, with any white space around the secret,
    is let through on every path. *)
Theorem masterKeyAuth_accepts_padded_secret (env : Env) (c : Context)
    (scheme pad1 pad2 : string) :
  configuredKey env ≠ "" →
  JS.toLowerCase scheme = "bearer" →
  is_blank pad1 = true →
  is_blank pad2 = true →
  req_header c AUTH_HEADER
  = Some (scheme +:+ " " +:+ pad1 +:+ configuredKey env +:+ pad2) →
  masterKeyAuth env c = Next.
Proof.
  intros Hkey Hscheme Hpad1 Hpad2 Hheader.
  assert (candidate c = Some (configuredKey env)) as Hcandidate.
  { apply candidate_spec. exists scheme, (pad1 +:+ configuredKey env +:+ pad2).
    split; [done|]. split; [done|]. unfold configuredKey in *.
    by rewrite trim_padded. }
  unfold masterKeyAuth. rewrite (truthy_nonempty _ Hkey). cbn [negb].
  by rewrite Hcandidate, bool_decide_eq_true_2.
Qed.

Lemma masterKeyAuth_accepts_padded_secret_witness :
  masterKeyAuth Examples.secret_env
    (Examples.request (Some ("BEARER" +:+ " " +:+ "  " +:+ "secret" +:+ String "009" " "))
       "/v1/messages")
  = Next.
Proof.
  apply (masterKeyAuth_accepts_padded_secret Examples.secret_env _
           "BEARER" "  " (String "009" " "));
    (reflexivity || (vm_compute; discriminate)).
Defined.

Lemma masterKeyAuth_blank (env : Env) (c : Context) :
  configuredKey env = "" → masterKeyAuth env c = Next.
Proof. intros Hkey. unfold masterKeyAuth. by rewrite Hkey. Qed.

Lemma masterKeyAuth_no_header (env : Env) (c : Context) :
  configuredKey env ≠ "" → req_header c AUTH_HEADER = None →
  masterKeyAuth env c ≠ Next.
Proof.
  intros Hkey Hheader. unfold masterKeyAuth.
  rewrite (truthy_nonempty _ Hkey). cbn [negb].
  unfold candidate. rewrite Hheader. cbn.
  by destruct (JS.startsWith (req_path c) "/v1/messages").
Qed.

(** X10: what [runServer] logs about [MASTER_KEY] is what the gate does:
    it logs that requests require authentication exactly when the gate
    rejects some request, and that authentication is disabled exactly when
    the gate lets every request through. *)
Theorem runServer_auth_log_agrees (env : Env) :
  (runServer_auth_log env = MasterKeyDetected ↔ ∃ c, masterKeyAuth env c ≠ Next)
  ∧ (runServer_auth_log env = MasterKeyNotSet ↔ ∀ c, masterKeyAuth env c = Next).
Proof.
  pose (c0 := {| req_header := λ _, None; req_path := "" |}).
  assert (runServer_auth_log env
          = if JS.truthy (configuredKey env) then MasterKeyDetected else MasterKeyNotSet)
    as -> by done.
  destruct (configuredKey env) as [|k key] eqn:Hkey; simpl.
  - split; split; try done.
    + intros [c Hc]. destruct Hc. by apply masterKeyAuth_blank.
    + intros _ c. by apply masterKeyAuth_blank.
  - assert (masterKeyAuth env c0 ≠ Next) as Hreject.
    { apply masterKeyAuth_no_header; [by rewrite Hkey|done]. }
    split; split; try done.
    + intros _. by exists c0.
    + intros Hall. by destruct Hreject.
Qed.

(** ** The path of the configuration *)

Section ConfigPath.

Context `{Imports}.

(** X11: the override [ACCOUNTS_CONFIG] counts when it has a character that
    is not white space, and is then resolved as it stands, untrimmed; unset,
    empty or blank, the default path is used. *)
Theorem configPath_override (w : World) :
  configPath w
  = match env w !! "ACCOUNTS_CONFIG" with
    | Some value => if is_blank value then DEFAULT_CONFIG_PATH else path_resolve value
    | None => DEFAULT_CONFIG_PATH
    end.
Proof.
  unfold configPath. destruct (env w !! "ACCOUNTS_CONFIG") as [value|]; [|done].
  destruct (is_blank value) eqn:Hblank.
  - apply trim_empty_iff in Hblank. rewrite Hblank. simpl. by rewrite andb_false_r.
  - assert (JS.trim value ≠ "") as Htrim.
    { intros Htrim%trim_empty_iff. congruence. }
    assert (JS.truthy value = true) as -> by (by destruct value).
    by destruct (JS.trim value).
Qed.

(** X12: a call reads the environment and one file, the one at the path of
    the configuration: two processes with the same environment and the same
    content (or absence) of that file get the same answer, whatever their
    other files. *)
Theorem getAccountsConfig_reads_one_file (w w' : World)
    (cachedConfig : option AccountsConfig) :
  env w = env w' →
  files w !! configPath w = files w' !! configPath w →
  getAccountsConfig w cachedConfig = getAccountsConfig w' cachedConfig.
Proof.
  intros Henv Hfile. destruct cachedConfig as [config|]; [done|].
  rewrite !getAccountsConfig_miss. unfold read_source, readConfigFile.
  assert (configPath w' = configPath w) as -> by (unfold configPath; by rewrite Henv).
  by rewrite <- Hfile, <- Henv.
Qed.

End ConfigPath.

(** ** The port of the [start] command *)

Lemma digit_range (c : ascii) (d : Z) : Number.digit c = Some d → (0 ≤ d ≤ 9)%Z.
Proof.
  unfold Number.digit.
  destruct ((48 <=? nat_of_ascii c) && (nat_of_ascii c <=? 57)) eqn:Hc; [|done].
  apply andb_prop in Hc as [Hlo%Nat.leb_le Hhi%Nat.leb_le]. intros [= <-]. lia.
Qed.

Lemma digit_not_ws (c : ascii) : is_Some (Number.digit c) → JS.is_ws c = false.
Proof. destruct c as [[] [] [] [] [] [] [] []]; vm_compute; by intros [? ?]. Qed.

Lemma digit_not_sign (c : ascii) :
  is_Some (Number.digit c) → c ≠ "-"%char ∧ c ≠ "+"%char.
Proof. intros [d Hd]. split; intros ->; vm_compute in Hd; discriminate. Qed.

Lemma take_digits_append (digits rest : string) :
  all_digits digits = true → no_digit_ahead rest = true →
  Number.take_digits (digits +:+ rest) = digits.
Proof.
  intros Hdigits Hrest. induction digits as [|c digits IH].
  - rewrite append_nil_l. destruct rest as [|r rest]; [done|]. simpl in *.
    apply bool_decide_eq_true in Hrest. by rewrite Hrest.
  - rewrite append_cons. simpl in *.
    apply andb_prop in Hdigits as [[d Hd]%bool_decide_eq_true Hdigits].
    by rewrite Hd, IH.
Qed.

Lemma take_digits_all (s : string) : Number.take_digits s = s → all_digits s = true.
Proof.
  induction s as [|c s IH]; [done|]. simpl.
  destruct (Number.digit c) as [d|]; [|done]. intros [= Hs].
  rewrite bool_decide_eq_true_2 by eauto. by apply IH.
Qed.

(** White space before the digits and whatever follows them do not count. *)
Lemma parseInt_leading_digits (pad digits rest : string) :
  is_blank pad = true → digits ≠ "" → all_digits digits = true →
  no_digit_ahead rest = true →
  Number.parseInt (pad +:+ digits +:+ rest) = Some (Number.digits_value 0 digits).
Proof.
  intros Hpad Hne Hdigits Hrest. unfold Number.parseInt.
  rewrite trimStart_append_blank by done.
  destruct digits as [|c digits]; [done|]. clear Hne.
  pose proof Hdigits as Hall. simpl in Hdigits.
  apply andb_prop in Hdigits as [Hc%bool_decide_eq_true _].
  rewrite append_cons, trimStart_clean by (simpl; by rewrite digit_not_ws).
  destruct (digit_not_sign c Hc) as [Hminus Hplus].
  rewrite !bool_decide_eq_false_2 by done.
  rewrite <- append_cons, take_digits_append by done.
  destruct (Number.digits_value 0 (String c digits)); done.
Qed.

Lemma run_port_of_parseInt (args_port : string) (port : Z) :
  Number.parseInt args_port = Some port →
  run_port args_port
  = if bool_decide (1 ≤ port ≤ 65535)%Z
    then Ok port
    else Throw (Error ("Invalid port: " +:+ args_port)).
Proof.
  intros Hparse. unfold run_port. rewrite Hparse. cbv zeta.
  case_bool_decide as Hrange.
  - assert ((port <=? 0)%Z = false) as -> by lia.
    assert ((65535 <? port)%Z = false) as -> by lia. done.
  - destruct (port <=? 0)%Z eqn:Hlow; [done|].
    assert ((65535 <? port)%Z = true) as -> by lia. done.
Qed.

(** X13: the port is read from the decimal digits at the start of the
    argument: white space before them and any text after them are ignored,
    and the number they write is the port when it is between 1 and 65535,
    and refused with the argument quoted as it was given otherwise. *)
Theorem run_port_leading_digits (pad digits rest : string) :
  is_blank pad = true → digits ≠ "" → all_digits digits = true →
  no_digit_ahead rest = true →
  run_port (pad +:+ digits +:+ rest)
  = if bool_decide (1 ≤ Number.digits_value 0 digits ≤ 65535)%Z
    then Ok (Number.digits_value 0 digits)
    else Throw (Error ("Invalid port: " +:+ pad +:+ digits +:+ rest)).
Proof.
  intros Hpad Hne Hdigits Hrest. apply run_port_of_parseInt.
  by apply parseInt_leading_digits.
Qed.

Lemma run_port_leading_digits_witness :
  run_port "8080abc" = Ok 8080%Z
  ∧ run_port (" " +:+ "70000" +:+ "") = Throw (Error "Invalid port:  70000").
Proof.
  split.
  - apply (run_port_leading_digits "" "8080" "abc"); (reflexivity || discriminate).
  - apply (run_port_leading_digits " " "70000" ""); (reflexivity || discriminate).
Defined.

(** X14: the command never hands [runServer] a port outside 1..65535: an
    argument without a number, with a negative number or zero, or with a
    number above 65535 is refused. *)
Theorem run_port_in_range (args_port : string) (port : Z) :
  run_port args_port = Ok port →
  (1 ≤ port ≤ 65535)%Z ∧ Number.parseInt args_port = Some port.
Proof.
  unfold run_port. destruct (Number.parseInt args_port) as [p|]; [|done]. cbv zeta.
  destruct (p <=? 0)%Z eqn:Hlow; [done|].
  destruct (65535 <? p)%Z eqn:Hhigh; [done|]. simpl. intros [= <-]. split; [lia|done].
Qed.

Lemma run_port_in_range_witness :
  (1 ≤ 4141 ≤ 65535)%Z ∧ Number.parseInt (envPort ∅) = Some 4141%Z.
Proof. apply (run_port_in_range (envPort ∅)). reflexivity. Defined.

(** The decimal notation of a number, digit by digit. *)
Lemma pretty_N_char_digit (x : N) :
  (x < 10)%N → Number.digit (pretty_N_char x) = Some (Z.of_N x).
Proof.
  intros Hx.
  assert (x = 0 ∨ x = 1 ∨ x = 2 ∨ x = 3 ∨ x = 4 ∨ x = 5 ∨ x = 6 ∨ x = 7 ∨ x = 8
          ∨ x = 9)%N as Hcases by lia.
  repeat (destruct Hcases as [->|Hcases]; [done|]). by subst.
Qed.

Lemma pretty_N_go_digits (x : N) (s : string) :
  Number.take_digits (pretty_N_go x s) = pretty_N_go x (Number.take_digits s)
  ∧ ((0 < x)%N →
     Number.digits_value 0 (pretty_N_go x s) = Number.digits_value (Z.of_N x) s).
Proof.
  revert s. induction (N.lt_wf_0 x) as [x _ IH]; intros s.
  assert (x = 0 ∨ 0 < x)%N as [->|Hx] by lia.
  { rewrite !pretty_N_go_0. split; [done|lia]. }
  rewrite !pretty_N_go_step by done.
  assert (x `div` 10 < x)%N as Hlt by (by apply N.div_lt).
  assert (x `mod` 10 < 10)%N as Hmod by (by apply N.mod_lt).
  destruct (IH _ Hlt (String (pretty_N_char (x `mod` 10)) s)) as [Htake Hvalue].
  split.
  - rewrite Htake. cbn [Number.take_digits]. rewrite pretty_N_char_digit by done.
    by rewrite (pretty_N_go_step x (Number.take_digits s)).
  - intros _. pose proof (N.div_mod x 10 ltac:(done)) as Hdivmod.
    destruct (N.eq_0_gt_0_cases (x `div` 10)) as [Hdiv|Hdiv].
    + rewrite Hdiv, pretty_N_go_0. cbn [Number.digits_value].
      rewrite pretty_N_char_digit by done. cbn [default from_option].
      f_equal. unfold Datatypes.id. rewrite Hdiv in Hdivmod. lia.
    + rewrite Hvalue by done. cbn [Number.digits_value].
      rewrite pretty_N_char_digit by done. cbn [default from_option].
      f_equal. unfold Datatypes.id.
      rewrite Hdivmod at 3. rewrite N2Z.inj_add, N2Z.inj_mul. lia.
Qed.

(** X15: every port from 1 to 65535, written in decimal notation, is
    accepted as itself. *)
Theorem run_port_decimal (n : N) :
  (1 ≤ n ≤ 65535)%N → run_port (pretty n) = Ok (Z.of_N n).
Proof.
  intros Hn. unfold pretty, pretty_N.
  rewrite decide_False by lia.
  assert (0 < n)%N as Hpos by lia.
  destruct (pretty_N_go_digits n "") as [Htake Hvalue].
  specialize (Hvalue Hpos). simpl in Htake, Hvalue.
  assert (pretty_N_go n "" ≠ "") as Hne.
  { intros Hempty. rewrite Hempty in Hvalue. simpl in Hvalue. lia. }
  pose proof (parseInt_leading_digits "" (pretty_N_go n "") ""
                eq_refl Hne (take_digits_all _ Htake) eq_refl) as Hparse.
  rewrite append_nil_l, append_nil_r, Hvalue in Hparse.
  rewrite (run_port_of_parseInt _ _ Hparse).
  by rewrite bool_decide_eq_true_2 by lia.
Qed.

Lemma run_port_decimal_witness : run_port "443" = Ok 443%Z.
Proof. apply (run_port_decimal 443). lia. Defined.

(** ** The further properties at concrete inputs *)

Lemma resolveEnvReferences_ok_iff_witness :
  ∃ text,
    resolveEnvReferences (env Scenarios.both_set_world) "${A}${B}" "acc" = Ok text.
Proof.
  apply (resolveEnvReferences_ok_iff (env Scenarios.both_set_world) "${A}${B}" "acc").
  vm_compute. reflexivity.
Defined.

Lemma getAccountsConfig_ok_all_valid_witness :
  ∃ raw document entries,
    files Examples.two_accounts_world
      !! configPath (H := Examples.imports) Examples.two_accounts_world = Some raw
    ∧ parse (Imports := Examples.imports) raw = inr document
    ∧ get_property document "accounts" = JArray entries
    ∧ entries ≠ []
    ∧ forallb (valid_entry (env Examples.two_accounts_world)) entries = true.
Proof.
  apply (getAccountsConfig_ok_all_valid (H := Examples.imports)
           Examples.two_accounts_world Examples.two_accounts_config
           (Some Examples.two_accounts_config)).
  vm_compute. reflexivity.
Defined.

Lemma returned_accounts_are_filled_witness :
  Forall (λ a, JS.trim (id a) ≠ "" ∧ githubToken a ≠ "")
    (accounts Examples.two_accounts_config).
Proof.
  apply (returned_accounts_are_filled (H := Examples.imports)
           [Resolve Examples.two_accounts_world]).
  vm_compute. left.
Defined.

Lemma first_invalid_entry_decides_witness :
  getAccountsConfig (H := Scenarios.imports) Scenarios.scalar_entry_world None
  = (Throw (Error "Account entry at index 1 in /srv/config.yaml must be an object"),
     None).
Proof.
  apply (first_invalid_entry_decides (H := Scenarios.imports)
           Scenarios.scalar_entry_world Scenarios.scalar_entry_yaml
           (Examples.document_of Scenarios.scalar_entry)
           [Examples.account_entry "primary" "token-one"] (JString "oops") []);
    vm_compute; reflexivity.
Defined.


Lemma run_without_reset_witness :
  ∃ (failed : list (result AccountsConfig)) (n : nat) (config : option AccountsConfig),
    Forall is_throw failed
    ∧ (run (H := Examples.imports) Scenarios.three_calls None).1
      = failed ++ match config with
                  | Some config => replicate (S n) (Ok config)
                  | None => []
                  end.
Proof.
  apply (run_without_reset (H := Examples.imports) Scenarios.three_calls).
  repeat constructor; discriminate.
Defined.

Lemma commands_use_first_account_witness :
  ∃ first,
    head (accounts Examples.duplicate_config) = Some first
    ∧ id first = defaultAccountId Examples.duplicate_config
    ∧ runServer_defaultAccount Examples.duplicate_config = Ok first
    ∧ checkUsage_defaultAccount Examples.duplicate_config = Ok first.
Proof.
  apply (commands_use_first_account (H := Examples.imports)
           [Resolve Examples.duplicate_world]).
  vm_compute. left.
Defined.

Lemma getAccountsConfig_reads_one_file_witness :
  getAccountsConfig (H := Examples.imports) Examples.two_accounts_world None
  = getAccountsConfig (H := Examples.imports) Scenarios.extra_file_world None.
Proof.
  apply (getAccountsConfig_reads_one_file (H := Examples.imports)
           Examples.two_accounts_world Scenarios.extra_file_world None);
    vm_compute; reflexivity.
Defined.
